(** * pipe-framework: step composition and pipe execution

    A shallow embedding of [pipe/core/base.py] (classes [Step], [BasePipe]
    and [NamedPipe]) and the properties of its composition operators
    ([&], [|]), of dynamic field resolution and of the pipe executor.

    Python objects are mutable and shared, so the embedding keeps a [world]:
    the step instances, the dictionaries their [required_fields] attribute
    points to, the console and a ghost log of the [run] calls that were made.
    Code is written in a small state-and-exception monad over that world. *)

From Stdlib Require Import String Ascii.
From stdpp Require Import base option list gmap strings relations.

Open Scope string_scope.
Open Scope list_scope.

(** ** Python values, exceptions and the frozendict *)

Module Py.

(** Modelled from the spec: [StepValidationException] and
    [StepExecutionException] are declared in [pipe/core/exceptions.py], which
    is not among the sources; the specification has them as the failure of
    validation and the failure to find a capability method, each carrying a
    message.  [AttributeError] and [TypeError] are the built-in ones the
    interpreter raises in [_parse_dynamic_fields] and in [store.copy].
    [Error] is an exception of any other class, built-in or a user's own
    deriving from [Exception], given by class name and message; [BaseError]
    is an exception of a user's class that derives from [BaseException]
    directly. *)
Inductive exn : Type :=
  | StepValidationException (msg : string)
  | StepExecutionException (msg : string)
  | AttributeError (attr : string)
  | TypeError
  | Error (cls msg : string)
  | BaseError (cls msg : string).

(** The built-in classes that derive from [BaseException] and not from
    [Exception]. *)
Definition base_only_classes : list string :=
  ["KeyboardInterrupt"; "SystemExit"; "GeneratorExit"].

(** [isinstance(e, Exception)]: what the clause [except Exception] catches.
    The two framework exceptions are taken to derive from [Exception]. *)
Definition is_Exception (e : exn) : bool :=
  match e with
  | Error cls _ => bool_decide (cls ∉ base_only_classes)
  | BaseError _ _ => false
  | _ => true
  end.

(** Values a container or an instance attribute can hold; [VObj] is any
    other object, given by its printed form. *)
#[warnings="-register-all"]
Inductive value : Type :=
  | VNone
  | VInt (z : Z)
  | VStr (s : string)
  | VExn (e : exn)
  | VObj (repr : string)
  | VDict (d : gmap string value).

(** The state container: [frozendict], an immutable mapping from string keys
    to values. *)
Abbreviation frozendict := (gmap string value).

(** [store.copy] called with keyword arguments [add_or_replace]: a new
    frozendict in which they are added to, or replace, the entries of
    [store]. *)
Definition copy (store add_or_replace : frozendict) : frozendict :=
  add_or_replace ∪ store.

(** Outcome of a call: a returned value or a raised exception. *)
Inductive result (A : Type) : Type :=
  | Ok (a : A)
  | Raise (e : exn).
Arguments Ok {A} a.
Arguments Raise {A} e.

(** [store.copy] called with the entries of a mapping that is known at run
    time only, unpacked as keyword arguments.  The method is declared with
    the parameter [self] before the keyword arguments, so the keyword [self]
    is a [TypeError] (multiple values for the argument); any other keyword
    is added or replaced.  The calls of [__and__] and [__or__] pass the
    literal keywords [obj_a], [obj_b] and [exception] and are plain [copy]. *)
Definition copy_kwargs (store add_or_replace : frozendict) : result frozendict :=
  if decide (is_Some (add_or_replace !! "self")) then Raise TypeError
  else Ok (copy store add_or_replace).

(** *** The string methods used by [_parse_dynamic_fields] *)

Definition startswith (s p : string) : bool := String.prefix p s.

Definition endswith (s p : string) : bool :=
  (String.length p <=? String.length s)%nat &&
  String.eqb (substring (String.length s - String.length p) (String.length p) s) p.

(** [s.replace(c, '')] for a one-character [c], and the same for every
    character of a class: drops each occurrence. *)
Fixpoint remove_chars (drop : ascii → bool) (s : string) : string :=
  match s with
  | EmptyString => EmptyString
  | String a s' =>
      if drop a then remove_chars drop s' else String a (remove_chars drop s')
  end.

Definition is_brace (a : ascii) : bool :=
  Ascii.eqb a "{"%char || Ascii.eqb a "}"%char.

Definition is_plus (a : ascii) : bool := Ascii.eqb a "+"%char.

(** [re.sub(r'\{|\}', '', key)] *)
Definition re_sub_braces (key : string) : string := remove_chars is_brace key.

(** [variable_name.replace('+', '')] *)
Definition replace_plus (name : string) : string := remove_chars is_plus name.

(** [sep.join(l)] *)
Fixpoint join (sep : string) (l : list string) : string :=
  match l with
  | [] => ""
  | [x] => x
  | x :: l' => (x ++ sep ++ join sep l')%string
  end.

End Py.
Import Py.

(** ** Python dictionaries in insertion order

    [required_fields] is a plain [dict]: [_parse_dynamic_fields] iterates over
    its keys, deletes entries in place and builds new dictionaries from it, so
    it is modelled as an association list with distinct keys, in insertion
    order. *)

Module Dict.

Abbreviation t A := (list (string * A)).

Section Dict.
Context {A : Type}.

Definition keys (d : t A) : list string := d.*1.

(** [d.get(k)] *)
Fixpoint get (k : string) (d : t A) : option A :=
  match d with
  | [] => None
  | (k', a) :: d' => if decide (k' = k) then Some a else get k d'
  end.

(** [del d[k]], for a key [d] has *)
Fixpoint del (k : string) (d : t A) : t A :=
  match d with
  | [] => []
  | (k', a) :: d' => if decide (k' = k) then del k d' else (k', a) :: del k d'
  end.

(** [d.update({k: a})]: an existing key keeps its position and takes the
    new value, a new key goes last. *)
Fixpoint update (k : string) (a : A) (d : t A) : t A :=
  match d with
  | [] => [(k, a)]
  | (k', a') :: d' =>
      if decide (k' = k) then (k, a) :: d' else (k', a') :: update k a d'
  end.

(** [dict] called with the keyword arguments of [d1] followed by those of
    [d2]: a keyword given twice is a [TypeError] ([None] here). *)
Definition merge_kwargs (d1 d2 : t A) : option (t A) :=
  if decide (Exists (λ k, k ∈ keys d1) (keys d2)) then None else Some (d1 ++ d2).
End Dict.

End Dict.

(** ** Steps, instances and the world *)

(** A step is an instance of a user-defined subclass of [Step] (named by its
    identity) or one of the two composites built by [__and__] and [__or__],
    which hold their operands in [obj_a] and [obj_b]. *)
Inductive step : Type :=
  | Atom (self : nat)
  | AndStep (obj_a obj_b : step)
  | OrStep (obj_a obj_b : step).

#[global] Instance step_eq_dec : EqDecision step.
Proof. solve_decision. Defined.

(** A capability method ([extract], [transform], [load]): user code, which sees
    the instance's attributes and the container, may change the attributes,
    and returns a container or raises. *)
Definition capability : Type :=
  gmap string value → frozendict → result frozendict * gmap string value.

(** Outcome of [V.parse(schema).validate(store)]. *)
Inductive validation : Type :=
  | Adapted (adapted : frozendict)
  | ValidationError (message : string)
  | Failure (e : exn).

(** The validation capability is an external collaborator ([valideer]): an
    interface giving the type of the rules a schema maps field names to, and
    the validator built from a schema. *)
Class Validator (rule : Type) : Type :=
  V_validate : Dict.t rule → frozendict → validation.

(** The hooks a pipe class may override. *)
Class PipeClass : Type := {
  before_pipe : frozendict → frozendict;
  after_pipe : frozendict → frozendict;
  interrupt : frozendict → bool;
}.

(** [BasePipe]: both hooks return the container they are given and the pipe
    is never interrupted. *)
Definition BasePipe : PipeClass :=
  {| before_pipe := λ store, store;
     after_pipe := λ store, store;
     interrupt := λ _, false |}.

Section Framework.

Context {rule : Type} `{!Validator rule}.

(** The state of one step instance.  [attrs] are its data attributes,
    [methods] the capability methods its class defines, [required_fields]
    what the attribute of that name evaluates to: [None] or a reference to a
    dictionary, which other instances of the class share as long as it is
    the class attribute. *)
Record instance : Type := Instance {
  cls_name : string;
  _available_methods : list string;
  methods : gmap string capability;
  attrs : gmap string value;
  required_fields : option nat;
}.

Record world : Type := World {
  objs : gmap nat instance;
  dicts : gmap nat (Dict.t rule);
  console : list (step * frozendict);
  calls : list (step * frozendict);
}.

(** *** The monad: state passing over the world, with exceptions *)

Definition M (A : Type) : Type := world → result A * world.

Definition ret {A} (a : A) : M A := λ w, (Ok a, w).

Definition raise {A} (e : exn) : M A := λ w, (Raise e, w).

Definition bind {A B} (m : M A) (k : A → M B) : M B :=
  λ w, match m w with
       | (Ok a, w') => k a w'
       | (Raise e, w') => (Raise e, w')
       end.

(** [try: m  except Exception as e: h e]: the handler takes the exceptions
    that are instances of [Exception]; any other propagates. *)
Definition try_except {A} (m : M A) (h : exn → M A) : M A :=
  λ w, match m w with
       | (Ok a, w') => (Ok a, w')
       | (Raise e, w') => if is_Exception e then h e w' else (Raise e, w')
       end.

(** A result handed on to the caller: returned or raised again. *)
Definition of_result {A} (r : result A) : M A :=
  match r with Ok a => ret a | Raise e => raise e end.

Definition gets {A} (f : world → A) : M A := λ w, (Ok (f w), w).

Definition modify (f : world → world) : M unit := λ w, (Ok tt, f w).

Notation "'let*' x ':=' m 'in' k" := (bind m (λ x, k))
  (at level 10, x name, m at level 100, k at level 200).
Notation "'let*' ' p ':=' m 'in' k" := (bind m (λ x, match x with p => k end))
  (at level 10, p pattern, m at level 100, k at level 200).
Notation "'do' m 'then' k" := (bind m (λ _, k))
  (at level 10, m at level 100, k at level 200).

(** A name bound to no object cannot occur in Python; the model raises. *)
Definition dangling {A} : M A := raise (Error "ReferenceError" "").

Definition get_instance (self : nat) : M instance :=
  let* o := gets (λ w, objs w !! self) in
  match o with Some inst => ret inst | None => dangling end.

Definition set_instance (self : nat) (inst : instance) : M unit :=
  modify (λ w, World (<[self := inst]> (objs w)) (dicts w) (console w) (calls w)).

Definition get_dict (l : nat) : M (Dict.t rule) :=
  let* o := gets (λ w, dicts w !! l) in
  match o with Some d => ret d | None => dangling end.

Definition set_dict (l : nat) (d : Dict.t rule) : M unit :=
  modify (λ w, World (objs w) (<[l := d]> (dicts w)) (console w) (calls w)).

(** A dictionary display or a [dict] call makes a new object. *)
Definition alloc_dict (d : Dict.t rule) : M nat :=
  let* l := gets (λ w, fresh (dom (dicts w))) in
  do set_dict l d then
  ret l.

Definition log_call (s : step) (store : frozendict) : M unit :=
  modify (λ w, World (objs w) (dicts w) (console w) (calls w ++ [(s, store)])).

Definition console_print (s : step) (store : frozendict) : M unit :=
  modify (λ w, World (objs w) (dicts w) (console w ++ [(s, store)]) (calls w)).

(** *** Step: dynamic fields, validation and dispatch *)

(** [getattr(self, name)]: a data attribute, else a method of the class
    (a bound method object), else [AttributeError]. *)
Definition getattr (self : nat) (name : string) : M value :=
  let* inst := get_instance self in
  match attrs inst !! name with
  | Some v => ret v
  | None =>
      match methods inst !! name with
      | Some _ => ret (VObj ("<bound method " ++ name ++ ">"))
      | None => raise (AttributeError name)
      end
  end.

(** [dynamic_config]: the dictionary built by [_parse_dynamic_fields].  Its
    keys are attribute values; every value of the model is hashable, and a
    key that is not a string makes the final [dict] call raise [TypeError]
    whatever else the dictionary holds, so for such keys only their
    presence is kept. *)
Record kwargs : Type := Kwargs {
  items : Dict.t rule;
  non_string_key : bool;
}.

(** [dynamic_config.update({v: r})] *)
Definition kwargs_update (v : value) (r : rule) (dynamic_config : kwargs) : kwargs :=
  match v with
  | VStr k => Kwargs (Dict.update k r (items dynamic_config)) (non_string_key dynamic_config)
  | _ => Kwargs (items dynamic_config) true
  end.

(** The test of the loop:
    [(key.startswith('+{') or key.startswith('{')) and key.endswith('}')] *)
Definition is_dynamic (key : string) : bool :=
  (startswith key "+{" || startswith key "{") && endswith key "}".

(** The [for key in keys] loop.  [l] is the dictionary that
    [self.required_fields] denotes: the attribute is not rebound inside the
    loop.  In the dictionary display the key ([getattr]) is evaluated before
    the value ([get]); [get] finding nothing would make the [del] that
    follows raise [KeyError]. *)
Fixpoint parse_loop (self l : nat) (keys : list string) (dynamic_config : kwargs)
    : M kwargs :=
  match keys with
  | [] => ret dynamic_config
  | key :: keys' =>
      if is_dynamic key then
        let variable_name := re_sub_braces key in
        let* v := getattr self (replace_plus variable_name) in
        let* d := get_dict l in
        match Dict.get key d with
        | Some r =>
            do set_dict l (Dict.del key d) then
            parse_loop self l keys' (kwargs_update v r dynamic_config)
        | None => raise (Error "KeyError" key)
        end
      else parse_loop self l keys' dynamic_config
  end.

(** [dict] called with the keywords of [self.required_fields] and then
    those of [dynamic_config]: keywords must be strings and none may be
    given twice. *)
Definition dict_kwargs (d : Dict.t rule) (dynamic_config : kwargs) : M (Dict.t rule) :=
  if non_string_key dynamic_config then raise TypeError
  else match Dict.merge_kwargs d (items dynamic_config) with
       | Some d' => ret d'
       | None => raise TypeError
       end.

(** [Step._parse_dynamic_fields] *)
Definition _parse_dynamic_fields (self : nat) : M unit :=
  let dynamic_config := Kwargs [] false in
  let* inst := get_instance self in
  match required_fields inst with
  | None => raise (AttributeError "keys")
  | Some l =>
      let* d := get_dict l in
      let keys := Dict.keys d in
      let* dynamic_config := parse_loop self l keys dynamic_config in
      let* d := get_dict l in
      let* d' := dict_kwargs d dynamic_config in
      let* l' := alloc_dict d' in
      let* inst := get_instance self in
      set_instance self
        (Instance (cls_name inst) (_available_methods inst) (methods inst)
                  (attrs inst) (Some l'))
  end.

(** What [self.required_fields] evaluates to, when it is a dictionary. *)
Definition self_required_fields (self : nat) (w : world) : option (Dict.t rule) :=
  inst ← objs w !! self; l ← required_fields inst; dicts w !! l.

Definition newline : string := String (ascii_of_nat 10) "".

(** [Step.validate] *)
Definition validate (self : nat) (store : frozendict) : M frozendict :=
  do _parse_dynamic_fields self then
  let* inst := get_instance self in
  let* o := gets (self_required_fields self) in
  match o with
  | None => dangling
  | Some schema =>
      match V_validate schema store with
      | Adapted adapted => of_result (copy_kwargs store adapted)
      | ValidationError message =>
          raise (StepValidationException
                   ("Validation for step " ++ cls_name inst ++
                    " failed with error " ++ newline ++ message))
      | Failure e => raise e
      end
  end.

(** The [for method in self._available_methods] loop of [Step.run]:
    the first name the instance has is called with the container.  A data
    attribute of that name is not callable. *)
Fixpoint dispatch (self : nat) (names : list string) (store : frozendict)
    : M (option frozendict) :=
  match names with
  | [] => ret None
  | method :: names' =>
      let* inst := get_instance self in
      match attrs inst !! method, methods inst !! method with
      | Some _, _ => raise TypeError
      | None, Some f =>
          let '(r, attrs') := f (attrs inst) store in
          do set_instance self
               (Instance (cls_name inst) (_available_methods inst) (methods inst)
                         attrs' (required_fields inst)) then
          match r with
          | Ok store' => ret (Some store')
          | Raise e => raise e
          end
      | None, None => dispatch self names' store
      end
  end.

(** [Step.run] *)
Definition Step_run (self : nat) (store : frozendict) : M frozendict :=
  let* inst := get_instance self in
  let* store :=
    match required_fields inst with
    | Some _ => validate self store
    | None => ret store
    end in
  let* o := dispatch self (_available_methods inst) store in
  match o with
  | Some store' => ret store'
  | None =>
      raise (StepExecutionException
               ("You should define one of this methods - " ++
                join "," (_available_methods inst)))
  end.

(** [run] of any step: [Step.run] for an instance of a user class, the
    [run] function of [__and__] for an [AndStep] and that of [__or__] for
    an [OrStep].  Every call is entered in the ghost log first. *)
Fixpoint run (s : step) (store : frozendict) : M frozendict :=
  do log_call s store then
  match s with
  | Atom self => Step_run self store
  | AndStep obj_a obj_b =>
      try_except
        (let* result_a := run obj_a store in
         let* result_b := run obj_b store in
         ret (copy store {[ "obj_a" := VDict result_a; "obj_b" := VDict result_b ]}))
        (λ _, ret store)
  | OrStep obj_a obj_b =>
      try_except
        (run obj_a store)
        (λ e, let store := copy store {[ "exception" := VExn e ]} in
              run obj_b store)
  end.

(** The world in which the body of [s.run(store)] starts: the call has been
    entered in the log. *)
Definition entered (s : step) (store : frozendict) (w : world) : world :=
  (log_call s store w).2.

(** What the clause [except Exception: return store] of [__and__] makes of
    an exception raised in its [try] block. *)
Definition swallowed (store : frozendict) (e : exn) : result frozendict :=
  if is_Exception e then Ok store else Raise e.

(** A computation leaves a component of the world as it found it. *)
Definition preserves {X A} (proj : world → X) (m : M A) : Prop :=
  ∀ w, proj (m w).2 = proj w.

(** The claim about a failing [A & B], read to the letter: whatever a branch
    raises -- [A], or [B] after [A] returned -- the composition returns its
    input and nothing propagates. *)
Definition swallows_any_exception (A B : step) (store : frozendict) (w : world)
    : Prop :=
  let w0 := entered (AndStep A B) store w in
  (∃ e, (run A store w0).1 = Raise e) ∨
  (∃ result_a e, (run A store w0).1 = Ok result_a
                 ∧ (run B store (run A store w0).2).1 = Raise e) →
  (run (AndStep A B) store w).1 = Ok store.

(** The claim about a failing [A] in [A | B], read to the letter: whatever
    [A] raises, the composition is [B] run on the input with the exception
    under the key [exception]. *)
Definition falls_back_on_any_exception (A B : step) (store : frozendict) (w : world)
    : Prop :=
  let w0 := entered (OrStep A B) store w in
  ∀ e, (run A store w0).1 = Raise e →
       run (OrStep A B) store w
       = run B (<["exception" := VExn e]> store) (run A store w0).2.

(** The claim about a successful [A & B], read to the letter: the result
    holds the two raw results under [obj_a] and [obj_b], and every key of
    the input with the value it had. *)
Definition attaches_keeping_every_key (A B : step) (store : frozendict) (w : world)
    : Prop :=
  ∀ result_a result_b,
    (run A store (entered (AndStep A B) store w)).1 = Ok result_a →
    (run B store (run A store (entered (AndStep A B) store w)).2).1 = Ok result_b →
    ∃ R, (run (AndStep A B) store w).1 = Ok R
         ∧ R !! "obj_a" = Some (VDict result_a)
         ∧ R !! "obj_b" = Some (VDict result_b)
         ∧ ∀ k v, store !! k = Some v → R !! k = Some v.

(** *** BasePipe and NamedPipe *)

(** The state of a pipe object: the private inspection flag and the current
    store. *)
Record pipe : Type := Pipe {
  __inspection_mode : bool;
  store : frozendict;
}.

Context `{!PipeClass}.

(** [BasePipe.__init__]; [frozendict(initial)] is [initial] itself. *)
Definition __init__ (initial : frozendict) (inspection : bool) : pipe :=
  Pipe inspection (before_pipe initial).

(** [BasePipe.set_inspection] *)
Definition set_inspection (self : pipe) (enable : bool) : bool * pipe :=
  let self := Pipe enable (store self) in
  (__inspection_mode self, self).

(** [BasePipe.__print_step] *)
Definition __print_step (item : step) (store : frozendict) : M unit :=
  console_print item store.

(** [BasePipe._run_pipe]: the result, the pipe object and the world when
    the call ends. *)
Fixpoint _run_pipe (items : list step) (self : pipe) (w : world)
    : result frozendict * pipe * world :=
  match items with
  | [] => (Ok (after_pipe (store self)), self, w)
  | item :: items' =>
      let w := if __inspection_mode self
               then snd (__print_step item (store self) w) else w in
      match run item (store self) w with
      | (Raise e, w) => (Raise e, self, w)
      | (Ok intermediate_store, w) =>
          if interrupt intermediate_store
          then (Ok (after_pipe intermediate_store), self, w)
          else _run_pipe items' (Pipe (__inspection_mode self) intermediate_store) w
      end
  end.

(** [NamedPipe.run_pipe] *)
Definition run_pipe (pipe_schema : gmap string (list step)) (name : string)
    (self : pipe) (w : world) : result frozendict * pipe * world :=
  let pipe_to_run := default [] (pipe_schema !! name) in
  _run_pipe pipe_to_run self w.

(** *** Vocabulary for the properties of the executor *)

(** The world in which [_run_pipe] runs [item]: the step has been printed
    if inspection is on. *)
Definition inspected (self : pipe) (item : step) (w : world) : world :=
  if __inspection_mode self then (__print_step item (store self) w).2 else w.

(** [commits items (self, w) (self', w')]: from [self] and [w], the loop of
    [_run_pipe] goes through all of [items], each step returning a
    container on which [interrupt] is false and which is committed to
    [self.store], and reaches [self'] and [w']. *)
Inductive commits : list step → pipe * world → pipe * world → Prop :=
  | commits_nil self w : commits [] (self, w) (self, w)
  | commits_cons item items self w intermediate_store w' final :
      run item (store self) (inspected self item w) = (Ok intermediate_store, w') →
      interrupt intermediate_store = false →
      commits items (Pipe (__inspection_mode self) intermediate_store, w') final →
      commits (item :: items) (self, w) final.

(** The claim about an interrupted pipe, read to the letter: when the steps
    before [item] commit and [interrupt] holds on what [item] returns, the
    call returns [after_pipe] of that result, [self.store] is left as it was
    committed before [item], and the two differ. *)
Definition interrupted_store_differs (pre : list step) (item : step) (post : list step)
    (self : pipe) (w : world) : Prop :=
  ∀ self1 w1 r w2,
    commits pre (self, w) (self1, w1) →
    run item (store self1) (inspected self1 item w1) = (Ok r, w2) →
    interrupt r = true →
    let out := _run_pipe (pre ++ item :: post) self w in
    out.1.1 = Ok (after_pipe r)
    ∧ store out.1.2 = store self1
    ∧ out.1.1 ≠ Ok (store out.1.2).

(** What the framework can do to the world: run a step on a container, or
    print one. *)
Inductive world_step : relation world :=
  | world_step_run s store w : world_step w (run s store w).2
  | world_step_print s store w : world_step w (console_print s store w).2.

Definition reachable : relation world := rtc world_step.

(** From [w0] on, [s] is a pure function of its input container: what
    [s.run] returns or raises is determined by the container alone, in
    every world the framework can reach. *)
Definition pure_step (w0 : world) (s : step) : Prop :=
  ∃ f : frozendict → result frozendict,
    ∀ w store, reachable w0 w → (run s store w).1 = f store.

(** An instance without state: it validates nothing and its capability
    methods leave its attributes as they are. *)
Definition stateless (inst : instance) : Prop :=
  required_fields inst = None ∧
  ∀ method f, methods inst !! method = Some f →
    ∀ attrs store, (f attrs store).2 = attrs.

(** What [Step.run] computes on a stateless instance. *)
Fixpoint dispatch_function (inst : instance) (names : list string)
    (store : frozendict) : option (result frozendict) :=
  match names with
  | [] => None
  | method :: names' =>
      match attrs inst !! method, methods inst !! method with
      | Some _, _ => Some (Raise TypeError)
      | None, Some f => Some (f (attrs inst) store).1
      | None, None => dispatch_function inst names' store
      end
  end.

Definition step_function (inst : instance) (store : frozendict) : result frozendict :=
  match dispatch_function inst (_available_methods inst) store with
  | Some r => r
  | None =>
      Raise (StepExecutionException
               ("You should define one of this methods - " ++
                join "," (_available_methods inst)))
  end.

(** *** Vocabulary for dynamic field resolution *)

(** The attribute a dynamic key names. *)
Definition variable_of (key : string) : string :=
  replace_plus (re_sub_braces key).

(** The string a dynamic key resolves to on an instance, if the attribute
    it names holds one. *)
Definition resolved (inst : instance) (key : string) : option string :=
  match attrs inst !! variable_of key with
  | Some (VStr v) => Some v
  | _ => None
  end.

(** The entries of a schema under literal keys, and its dynamic entries
    under the strings their keys resolve to. *)
Definition static_part (d : Dict.t rule) : Dict.t rule :=
  filter (λ entry, ¬ is_dynamic entry.1) d.

Definition dynamic_rekeyed (inst : instance) (d : Dict.t rule) : Dict.t rule :=
  omap (λ entry, if is_dynamic entry.1
                 then v ← resolved inst entry.1; Some (v, entry.2)
                 else None) d.

(** The schema re-keyed: literal entries first, then the re-keyed ones. *)
Definition rekeyed (inst : instance) (d : Dict.t rule) : Dict.t rule :=
  static_part d ++ dynamic_rekeyed inst d.

(** What [validate] returns or raises on an instance whose schema, dynamic
    fields resolved, is [schema]. *)
Definition validated (inst : instance) (schema : Dict.t rule) (store : frozendict)
    : result frozendict :=
  match V_validate schema store with
  | Adapted adapted => copy_kwargs store adapted
  | ValidationError message =>
      Raise (StepValidationException
               ("Validation for step " ++ cls_name inst ++
                " failed with error " ++ newline ++ message))
  | Failure e => Raise e
  end.

(** The claim about one dynamic key, read to the letter: whenever the
    schema of the instance has an entry under the dynamic [key] and the
    attribute [key] names holds the string [v], a call of [validate] leaves
    a schema with that entry under [v] and none under [key], and validates
    against that schema. *)
Definition rekeys_entry (id : nat) (key : string) (store : frozendict) (w : world)
    : Prop :=
  ∀ inst d r v,
    objs w !! id = Some inst →
    self_required_fields id w = Some d →
    Dict.get key d = Some r →
    is_dynamic key →
    attrs inst !! variable_of key = Some (VStr v) →
    let out := validate id store w in
    ∃ d', self_required_fields id out.2 = Some d'
          ∧ Dict.get v d' = Some r
          ∧ Dict.get key d' = None
          ∧ out.1 = validated inst d' store.

(** *** Vocabulary for the further properties *)

(** The instance has no attribute called [name], data or method. *)
Definition lacks (inst : instance) (name : string) : Prop :=
  attrs inst !! name = None ∧ methods inst !! name = None.

(** The world with its console replaced. *)
Definition with_console (c : list (step * frozendict)) (w : world) : world :=
  World (objs w) (dicts w) c (calls w).

(** A computation neither reads nor writes the console: it does the same
    whatever the console holds, and leaves it as it is. *)
Definition ignores_console {A} (m : M A) : Prop :=
  ∀ c w, m (with_console c w) = ((m w).1, with_console c (m w).2).

(** A name free of the characters [_parse_dynamic_fields] strips. *)
Fixpoint plain_name (name : string) : bool :=
  match name with
  | EmptyString => true
  | String a name' => negb (is_brace a) && negb (is_plus a) && plain_name name'
  end.

(** The instances a step is built from. *)
Fixpoint atoms (s : step) : list nat :=
  match s with
  | Atom id => [id]
  | AndStep obj_a obj_b | OrStep obj_a obj_b => atoms obj_a ++ atoms obj_b
  end.

(** [hoare P m Q E]: run in a world where [P] holds, [m] returns some [a]
    in a world where [Q a] holds, or raises in a world where [E] holds. *)
Definition hoare {A} (P : world → Prop) (m : M A) (Q : A → world → Prop)
    (E : world → Prop) : Prop :=
  ∀ w, P w → match m w with
             | (Ok a, w') => Q a w'
             | (Raise _, w') => E w'
             end.

(** The dictionary at [l] is [d], and it is the schema of none of the
    instances [ids]. *)
Definition unshared (l : nat) (d : Dict.t rule) (ids : list nat) (w : world) : Prop :=
  dicts w !! l = Some d
  ∧ ∀ id inst, id ∈ ids → objs w !! id = Some inst → required_fields inst ≠ Some l.

(** [inst'] is [inst] but for its attributes and its schema: same class,
    same methods. *)
Definition same_class (inst inst' : instance) : Prop :=
  cls_name inst' = cls_name inst
  ∧ _available_methods inst' = _available_methods inst
  ∧ methods inst' = methods inst.

(** Two worlds hold the same instances, each of the class it was. *)
Definition same_instances (w w' : world) : Prop :=
  ∀ id, match objs w !! id, objs w' !! id with
        | Some inst, Some inst' => same_class inst inst'
        | None, None => True
        | _, _ => False
        end.

Definition keeps_instances {A} (m : M A) : Prop :=
  ∀ w, same_instances w (m w).2.

(** Two worlds that differ in the log of calls at most. *)
Definition same_but_log (w w' : world) : Prop :=
  objs w = objs w' ∧ dicts w = dicts w' ∧ console w = console w'.

(** A computation does not read the log: from worlds that differ in the log
    at most it returns or raises the same, and leaves such worlds. *)
Definition ignores_log {A} (m : M A) : Prop :=
  ∀ w w', same_but_log w w' →
    (m w).1 = (m w').1 ∧ same_but_log (m w).2 (m w').2.

End Framework.

Arguments is_dynamic : simpl never.
Arguments variable_of : simpl never.
Arguments resolved : simpl never.
Arguments instance : clear implicits.
Arguments world : clear implicits.
Arguments M : clear implicits.
Arguments kwargs : clear implicits.

(** ** A validator and some steps to run the definitions on *)

Module Demo.

(** Rules that test the type of a field, and a validator that reads a
    schema the way [valideer] reads a dictionary: a key written [+name]
    makes the field [name] required, a key written [?name] or [name] makes
    it optional, a field that is present must pass its rule, and fields the
    schema does not name are accepted.  Nothing is adapted. *)
Inductive type_rule : Type := IsStr | IsInt | Anything.

Definition passes (r : type_rule) (v : value) : bool :=
  match r, v with
  | IsStr, VStr _ | IsInt, VInt _ | Anything, _ => true
  | _, _ => false
  end.

Definition field_name (key : string) : string :=
  match key with
  | String a name => if Ascii.eqb a "+" || Ascii.eqb a "?" then name else key
  | EmptyString => key
  end.

Definition field_ok (store : frozendict) (entry : string * type_rule) : bool :=
  match store !! field_name entry.1 with
  | Some v => passes entry.2 v
  | None => negb (startswith entry.1 "+")
  end.

#[global] Instance valideer : Validator type_rule := λ schema store,
  match List.find (λ entry, negb (field_ok store entry)) schema with
  | Some entry => ValidationError ("invalid or missing property " ++ field_name entry.1)
  | None => Adapted store
  end.

Definition no_attrs : gmap string value := ∅.

(** Capability methods: one that adds a key, one that fails, one that
    counts its calls in an attribute of the instance. *)
Definition add_key (k : string) (v : value) : capability :=
  λ attrs store, (Ok (<[k := v]> store), attrs).

Definition failing : capability :=
  λ attrs store, (Raise (Error "ExtractorException" "no such row"), attrs).

Definition counting : capability :=
  λ attrs store,
    let n := match attrs !! "n" with Some (VInt n) => n | _ => 0%Z end in
    (Ok (<["count" := VInt n]> store), <["n" := VInt (n + 1)]> attrs).

Definition default_methods : list string := ["extract"; "transform"; "load"].

(** An instance without validation schema ([required_fields = None]). *)
Definition plain (name method : string) (f : capability) : instance :=
  Instance name default_methods {[ method := f ]} no_attrs None.

Definition TName : instance := plain "TName" "transform" (add_key "name" (VStr "ada")).
Definition TAge : instance := plain "TAge" "transform" (add_key "age" (VInt 36)).
Definition EUser : instance := plain "EUser" "extract" failing.
Definition TCount : instance := plain "TCount" "transform" counting.

(** An instance with the empty schema, one with a dynamic field that
    resolves to [users], and one with the same dynamic field next to a
    literal [users] entry. *)
Definition TEmpty : instance :=
  Instance "TEmpty" default_methods {[ "transform" := add_key "seen" VNone ]}
           no_attrs (Some 0).

Definition LTable : instance :=
  Instance "LTable" default_methods {[ "load" := add_key "loaded" VNone ]}
           {[ "table_name" := VStr "users" ]} (Some 1).

Definition LClash : instance :=
  Instance "LClash" default_methods {[ "load" := add_key "loaded" VNone ]}
           {[ "table_name" := VStr "users" ]} (Some 2).

(** Two more instances with dynamic fields: one names an attribute the
    instance does not have, one has two keys that resolve to the same
    string. *)
Definition LMissing : instance :=
  Instance "LMissing" default_methods {[ "load" := add_key "loaded" VNone ]}
           {[ "table_name" := VStr "users" ]} (Some 3).

Definition LTwice : instance :=
  Instance "LTwice" default_methods {[ "load" := add_key "loaded" VNone ]}
           {[ "table_name" := VStr "users" ]} (Some 4).

Definition demo_objs : gmap nat instance :=
  list_to_map
    [ (0, TName); (1, TAge); (2, EUser); (3, TCount);
      (4, TEmpty); (5, LTable); (6, LClash); (7, LMissing); (8, LTwice) ].

Definition table_schema : Dict.t type_rule :=
  [("+{table_name}", Anything); ("id", IsInt)].

Definition clash_schema : Dict.t type_rule :=
  [("{table_name}", IsStr); ("users", IsInt)].

Definition missing_schema : Dict.t type_rule :=
  [("{table_name}", IsStr); ("{pk}", IsInt)].

Definition twice_schema : Dict.t type_rule :=
  [("{table_name}", IsStr); ("+{table_name}", IsInt)].

Definition demo_dicts : gmap nat (Dict.t type_rule) :=
  list_to_map
    [ (0, []); (1, table_schema); (2, clash_schema);
      (3, missing_schema); (4, twice_schema) ].

Definition w0 : world type_rule := World demo_objs demo_dicts [] [].

(** A pipe class that stops as soon as the container has a key [age]. *)
Definition StopAtAge : PipeClass :=
  {| before_pipe := λ store, store;
     after_pipe := λ store, <["done" := VNone]> store;
     interrupt := λ store, bool_decide (is_Some (store !! "age")) |}.

(** Inputs and intermediate states of the examples. *)
Definition no_such_row : exn := Error "ExtractorException" "no such row".

Definition C_a : frozendict := {[ "a" := VInt 1 ]}.
Definition C_name : frozendict := <["name" := VStr "ada"]> C_a.
Definition C_age : frozendict := <["age" := VInt 36]> C_a.
Definition C_obj_a : frozendict := {[ "obj_a" := VInt 1 ]}.

Definition self0 : pipe := @__init__ StopAtAge ∅ true.
Definition self1 : pipe := Pipe true {[ "name" := VStr "ada" ]}.
Definition w1 : world type_rule :=
  (run (Atom 0) (store self0) (inspected self0 (Atom 0) w0)).2.
Definition r2 : frozendict := <["age" := VInt 36]> {[ "name" := VStr "ada" ]}.
Definition w2 : world type_rule :=
  (run (Atom 1) (store self1) (inspected self1 (Atom 1) w1)).2.

(** More instances, in a world that extends [w0]: a loader that fails, an
    instance without capability method, one with two of them, and a second
    instance of the class of [LTable], sharing its schema. *)
Definition disk_full : exn := Error "LoaderException" "disk full".

Definition LDisk : instance :=
  plain "LDisk" "load" (λ attrs store, (Raise disk_full, attrs)).

Definition Bare : instance := Instance "Bare" default_methods ∅ no_attrs None.

Definition via_transform : capability := add_key "via" (VStr "transform").

Definition TLoad : instance :=
  Instance "TLoad" default_methods
           {[ "transform" := via_transform; "load" := add_key "via" (VStr "load") ]}
           no_attrs None.

Definition LBooks : instance :=
  Instance "LTable" default_methods {[ "load" := add_key "loaded" VNone ]}
           {[ "table_name" := VStr "books" ]} (Some 1).

Definition more_objs : gmap nat instance :=
  <[9 := LDisk]> (<[10 := Bare]> (<[11 := TLoad]> (<[12 := LBooks]> demo_objs))).

Definition wx : world type_rule := World more_objs demo_dicts [] [].

Definition C_bad_id : frozendict := {[ "id" := VStr "seven" ]}.

Definition w_failed : world type_rule :=
  (run (Atom 2) (store self1) (inspected self1 (Atom 2) w1)).2.

Definition pipe0 : pipe := @__init__ BasePipe ∅ false.

(** A step interrupted from the keyboard while it runs and a step that
    returns the container it is given, in a world that extends [wx]; a pipe
    class that stops after any step and has the hooks of [BasePipe]; a
    container with a key [self]. *)
Definition keyboard_interrupt : exn := Error "KeyboardInterrupt" "".

Definition EInterrupted : instance :=
  plain "EInterrupted" "extract" (λ attrs store, (Raise keyboard_interrupt, attrs)).

Definition TSame : instance :=
  plain "TSame" "transform" (λ attrs store, (Ok store, attrs)).

Definition wk : world type_rule :=
  World (<[13 := EInterrupted]> (<[14 := TSame]> more_objs)) demo_dicts [] [].

Definition AlwaysStop : PipeClass :=
  {| before_pipe := λ store, store;
     after_pipe := λ store, store;
     interrupt := λ _, true |}.

Definition pipe_a : pipe := @__init__ AlwaysStop C_a false.

Definition C_self : frozendict := {[ "self" := VInt 1 ]}.

End Demo.

(** * Properties *)

Section Properties.

Context {rule : Type} `{!Validator rule}.

Implicit Types (A B s : step) (C : frozendict) (w : world rule) (e : exn).

(** ** The monad and the frame of its operations *)

Lemma preserves_ret {X Y} (proj : world rule → X) (a : Y) : preserves proj (ret a).
Proof. done. Qed.

Lemma preserves_raise {X Y} (proj : world rule → X) e :
  preserves proj (raise (A := Y) e).
Proof. done. Qed.

Lemma preserves_gets {X Y} (proj : world rule → X) (f : world rule → Y) :
  preserves proj (gets f).
Proof. done. Qed.

Lemma preserves_bind {X Y Z} (proj : world rule → X) (m : M rule Y) (k : Y → M rule Z) :
  preserves proj m → (∀ a, preserves proj (k a)) → preserves proj (bind m k).
Proof.
  intros Hm Hk w. unfold bind. specialize (Hm w).
  destruct (m w) as [[a|e] w1]; simpl in *; [|done].
  by rewrite Hk.
Qed.

Lemma preserves_try_except {X Y} (proj : world rule → X) (m : M rule Y) h :
  preserves proj m → (∀ e, preserves proj (h e)) → preserves proj (try_except m h).
Proof.
  intros Hm Hh w. unfold try_except. specialize (Hm w).
  destruct (m w) as [[a|e] w1]; simpl in *; [done|].
  destruct (is_Exception e); [by rewrite Hh|done].
Qed.

Lemma preserves_of_result {X Y} (proj : world rule → X) (r : result Y) :
  preserves proj (of_result r).
Proof. by destruct r. Qed.

Lemma preserves_dangling {X Y} (proj : world rule → X) :
  preserves proj (dangling (A := Y)).
Proof. done. Qed.

Lemma preserves_get_instance {X} (proj : world rule → X) self :
  preserves proj (get_instance self).
Proof.
  apply preserves_bind; [apply preserves_gets|].
  intros [inst|]; [apply preserves_ret|apply preserves_dangling].
Qed.

Lemma preserves_get_dict {X} (proj : world rule → X) l :
  preserves proj (get_dict l).
Proof.
  apply preserves_bind; [apply preserves_gets|].
  intros [d|]; [apply preserves_ret|apply preserves_dangling].
Qed.

Lemma preserves_getattr {X} (proj : world rule → X) self name :
  preserves proj (getattr self name).
Proof.
  apply preserves_bind; [apply preserves_get_instance|].
  intros inst. destruct (attrs inst !! name); [apply preserves_ret|].
  destruct (methods inst !! name); [apply preserves_ret|apply preserves_raise].
Qed.

Create HintDb frame discriminated.
Hint Resolve preserves_ret preserves_raise preserves_gets preserves_dangling
  preserves_of_result preserves_get_instance preserves_get_dict preserves_getattr : frame.
Hint Extern 2 (preserves _ (bind _ _)) => apply preserves_bind; [|intros ?] : frame.
Hint Extern 2 (preserves _ (try_except _ _)) =>
  apply preserves_try_except; [|intros ?] : frame.

(** [Step.run] and what it calls on [self] touch that instance and the
    dictionaries only: any component that [set_instance self] and
    [set_dict] leave alone is left alone by them. *)
Section Frame.
Context {X : Type} (proj : world rule → X) (self : nat).
Hypothesis set_instance_frame : ∀ inst, preserves proj (set_instance self inst).
Hypothesis set_dict_frame : ∀ l d, preserves proj (set_dict l d).

Local Hint Resolve set_instance_frame set_dict_frame : frame.

Lemma preserves_alloc_dict d : preserves proj (alloc_dict d).
Proof. unfold alloc_dict. auto with frame. Qed.

Lemma preserves_parse_loop l keys dynamic_config :
  preserves proj (parse_loop self l keys dynamic_config).
Proof.
  revert dynamic_config.
  induction keys as [|key keys IH]; intros dynamic_config; simpl.
  - auto with frame.
  - destruct (is_dynamic key); [|done].
    apply preserves_bind; [auto with frame|]. intros v.
    apply preserves_bind; [auto with frame|]. intros d.
    destruct (Dict.get key d); auto with frame.
Qed.

Lemma preserves_dict_kwargs d dynamic_config :
  preserves proj (dict_kwargs d dynamic_config).
Proof.
  unfold dict_kwargs. destruct (non_string_key _); [auto with frame|].
  destruct (Dict.merge_kwargs _ _); auto with frame.
Qed.

Local Hint Resolve preserves_alloc_dict preserves_parse_loop
  preserves_dict_kwargs : frame.

Lemma preserves_parse_dynamic_fields :
  preserves proj (_parse_dynamic_fields self).
Proof.
  unfold _parse_dynamic_fields.
  apply preserves_bind; [auto with frame|]. intros inst.
  destruct (required_fields inst); auto 10 with frame.
Qed.

Local Hint Resolve preserves_parse_dynamic_fields : frame.

Lemma preserves_validate C : preserves proj (validate self C).
Proof.
  unfold validate.
  apply preserves_bind; [auto with frame|]. intros _.
  apply preserves_bind; [auto with frame|]. intros inst.
  apply preserves_bind; [auto with frame|]. intros [schema|]; [|auto with frame].
  destruct (V_validate schema C); auto with frame.
Qed.

Lemma preserves_dispatch names C : preserves proj (dispatch self names C).
Proof.
  induction names as [|method names IH]; simpl; [auto with frame|].
  apply preserves_bind; [auto with frame|]. intros inst.
  destruct (attrs inst !! method); [auto with frame|].
  destruct (methods inst !! method) as [f|]; [|done].
  destruct (f (attrs inst) C) as [[store'|e] attrs']; auto with frame.
Qed.

Local Hint Resolve preserves_validate preserves_dispatch : frame.

Lemma preserves_Step_run C : preserves proj (Step_run self C).
Proof.
  unfold Step_run.
  apply preserves_bind; [auto with frame|]. intros inst.
  apply preserves_bind; [destruct (required_fields inst); auto with frame|].
  intros store. apply preserves_bind; [auto with frame|].
  intros [store'|]; auto with frame.
Qed.
End Frame.

Lemma Step_run_calls self C : preserves calls (Step_run self C).
Proof. by apply preserves_Step_run. Qed.

(** ** The ghost log *)

(** A call of [run] is entered in the log, before anything it calls, and
    nothing is ever taken out of the log. *)
Lemma run_calls s C w :
  ∃ tr, calls (run s C w).2 = calls w ++ (s, C) :: tr.
Proof.
  revert C w. induction s as [self|A IHA B IHB|A IHA B IHB]; intros C w.
  - exists []. simpl. unfold bind at 1. simpl. by rewrite Step_run_calls.
  - simpl. unfold bind at 1, try_except, bind. simpl.
    set (w0 := World _ _ _ _).
    destruct (IHA C w0) as [trA HA].
    destruct (run A C w0) as [[ra|e] w1]; simpl in *.
    + destruct (IHB C w1) as [trB HB].
      destruct (run B C w1) as [[rb|e] w2]; simpl in *;
        [|destruct (is_Exception e); simpl];
        rewrite HB, HA; subst w0; simpl; rewrite <- !app_assoc; simpl; eauto.
    + destruct (is_Exception e); simpl;
        rewrite HA; subst w0; simpl; rewrite <- !app_assoc; simpl; eauto.
  - simpl. unfold bind at 1, try_except. simpl.
    set (w0 := World _ _ _ _).
    destruct (IHA C w0) as [trA HA].
    destruct (run A C w0) as [[ra|e] w1]; simpl in *.
    + rewrite HA. subst w0; simpl. rewrite <- !app_assoc; simpl; eauto.
    + destruct (is_Exception e); simpl.
      * destruct (IHB (copy C {["exception" := VExn e]}) w1) as [trB HB].
        rewrite HB, HA. subst w0; simpl. rewrite <- !app_assoc; simpl; eauto.
      * rewrite HA. subst w0; simpl. rewrite <- !app_assoc; simpl; eauto.
Qed.

Lemma run_leaves_trace s C w : calls (run s C w).2 ≠ calls w.
Proof.
  destruct (run_calls s C w) as [tr ->]. intros Heq.
  apply (f_equal length) in Heq. rewrite length_app in Heq. simpl in Heq. lia.
Qed.

(** ** The composition operators *)

Lemma run_Atom id C w : run (Atom id) C w = Step_run id C (entered (Atom id) C w).
Proof. done. Qed.

(** The [run] function of [__and__], by the outcomes of its branches. *)
Lemma run_AndStep A B C w :
  run (AndStep A B) C w =
    match run A C (entered (AndStep A B) C w) with
    | (Raise e, w1) => (swallowed C e, w1)
    | (Ok result_a, w1) =>
        match run B C w1 with
        | (Raise e, w2) => (swallowed C e, w2)
        | (Ok result_b, w2) =>
            (Ok (copy C {[ "obj_a" := VDict result_a; "obj_b" := VDict result_b ]}), w2)
        end
    end.
Proof.
  simpl. unfold bind at 1, try_except, bind, entered, swallowed. simpl.
  destruct (run A C _) as [[ra|e] w1]; [|by destruct (is_Exception e)].
  destruct (run B C w1) as [[rb|e] w2]; [done|by destruct (is_Exception e)].
Qed.

(** The [run] function of [__or__], by the outcome of its first branch. *)
Lemma run_OrStep A B C w :
  run (OrStep A B) C w =
    match run A C (entered (OrStep A B) C w) with
    | (Ok result, w1) => (Ok result, w1)
    | (Raise e, w1) =>
        if is_Exception e then run B (copy C {[ "exception" := VExn e ]}) w1
        else (Raise e, w1)
    end.
Proof. simpl. unfold bind at 1, try_except, entered. simpl. done. Qed.

(** C1, as amended. If a branch of [A & B] raises [e] while the composition
    runs on [C] -- [A] in the world the composition starts in, or [B] in the
    world [A] left after returning -- then the composition returns [C]
    itself and raises nothing when [e] is an instance of [Exception], and
    raises [e] when it is not. *)
Theorem and_step_failure_returns_input A B C w e :
  let w0 := entered (AndStep A B) C w in
  (run A C w0).1 = Raise e ∨
  (∃ result_a, (run A C w0).1 = Ok result_a ∧ (run B C (run A C w0).2).1 = Raise e) →
  (run (AndStep A B) C w).1 = if is_Exception e then Ok C else Raise e.
Proof.
  intros w0 Hfail. rewrite run_AndStep. fold w0.
  destruct (run A C w0) as [[ra|ea] w1]; simpl in *.
  - destruct Hfail as [He|(ra' & _ & He)]; [done|].
    destruct (run B C w1) as [[rb|eb] w2]; simpl in *; [done|].
    by injection He as ->.
  - destruct Hfail as [He|(ra' & He & _)]; [|done].
    by injection He as ->.
Qed.

(** C2, as amended. If [A] raises [e] on [C] and [e] is an instance of
    [Exception], then [(A | B).run(C)] is [B.run(C')], result and effects,
    where [C'] is [C] with the key [exception] set to [e] (and every other
    key as in [C]); [B] runs in the world [A] left.  If [e] is not an
    instance of [Exception], the composition raises [e] in the world [A]
    left: [B] does not run. *)
Theorem or_step_failure_runs_obj_b A B C w e :
  let w0 := entered (OrStep A B) C w in
  let C' := <["exception" := VExn e]> C in
  (run A C w0).1 = Raise e →
  run (OrStep A B) C w
  = (if is_Exception e then run B C' (run A C w0).2 else (Raise e, (run A C w0).2))
  ∧ C' !! "exception" = Some (VExn e)
  ∧ ∀ k, k ≠ "exception" → C' !! k = C !! k.
Proof.
  intros w0 C' Hraise. split; [|split].
  - rewrite run_OrStep. fold w0.
    destruct (run A C w0) as [[r|e'] w1]; simpl in *; [done|].
    injection Hraise as ->. unfold copy, C'.
    by rewrite insert_union_singleton_l.
  - apply lookup_insert_eq.
  - intros k Hk. by apply lookup_insert_ne.
Qed.

(** C5. If [A] returns on [C], then [(A | B).run(C)] returns that very value
    and ends in the world [A] left: the log holds the calls [A] made and no
    other, so [B.run] was not called. *)
Theorem or_step_success_skips_obj_b A B C w result :
  let w0 := entered (OrStep A B) C w in
  (run A C w0).1 = Ok result →
  run (OrStep A B) C w = (Ok result, (run A C w0).2)
  ∧ calls (run (OrStep A B) C w).2 = calls (run A C w0).2.
Proof.
  intros w0 Hok. rewrite run_OrStep. fold w0.
  destruct (run A C w0) as [[r|e] w1]; simpl in *; [|done].
  by injection Hok as ->.
Qed.


(** C6, as amended. If [A] and then [B] return on [C], [(A & B).run(C)]
    returns [C] with the key [obj_a] set to the result of [A] and the key
    [obj_b] set to the result of [B]; every other key is as in [C]. *)
Theorem and_step_success_attaches_results A B C w result_a result_b :
  let w0 := entered (AndStep A B) C w in
  (run A C w0).1 = Ok result_a →
  (run B C (run A C w0).2).1 = Ok result_b →
  let R := <["obj_a" := VDict result_a]> (<["obj_b" := VDict result_b]> C) in
  (run (AndStep A B) C w).1 = Ok R
  ∧ R !! "obj_a" = Some (VDict result_a)
  ∧ R !! "obj_b" = Some (VDict result_b)
  ∧ ∀ k, k ≠ "obj_a" → k ≠ "obj_b" → R !! k = C !! k.
Proof.
  intros w0 Ha Hb R. split; [|split; [|split]].
  - rewrite run_AndStep. fold w0.
    destruct (run A C w0) as [[ra|ea] w1]; simpl in *; [|done].
    destruct (run B C w1) as [[rb|eb] w2]; simpl in *; [|done].
    injection Ha as ->. injection Hb as ->. simpl. f_equal.
    unfold copy, R. apply map_eq. intros k.
    rewrite lookup_union, !lookup_insert, lookup_singleton.
    repeat case_decide; simpl; try done; by destruct (C !! k).
  - apply lookup_insert_eq.
  - unfold R. by rewrite lookup_insert_ne, lookup_insert_eq.
  - intros k Ha' Hb'. unfold R. by rewrite !lookup_insert_ne.
Qed.

(** ** The pipe executor *)

Context `{!PipeClass}.

Implicit Types (self : pipe) (items pre post : list step).

Lemma _run_pipe_cons item items self w :
  _run_pipe (item :: items) self w =
    match run item (store self) (inspected self item w) with
    | (Raise e, w') => (Raise e, self, w')
    | (Ok intermediate_store, w') =>
        if interrupt intermediate_store
        then (Ok (after_pipe intermediate_store), self, w')
        else _run_pipe items (Pipe (__inspection_mode self) intermediate_store) w'
    end.
Proof. done. Qed.

(** Steps that commit are a prefix the loop simply goes through. *)
Lemma _run_pipe_commits pre rest self w self1 w1 :
  commits pre (self, w) (self1, w1) →
  _run_pipe (pre ++ rest) self w = _run_pipe rest self1 w1.
Proof.
  intros Hc. remember (self, w) as start eqn:Hs. remember (self1, w1) as final eqn:Hf.
  revert self w Hs. induction Hc as [self' w'|item items self' w' r w'' final Hrun Hint Hc IH];
    intros self w Hs.
  - rewrite Hf in Hs. by injection Hs as -> ->.
  - injection Hs as -> ->. simpl app. rewrite _run_pipe_cons, Hrun, Hint.
    by apply IH.
Qed.

(** The last of the committed steps returned what the store then holds. *)
Lemma commits_snoc pre prev self w self1 w1 :
  commits (pre ++ [prev]) (self, w) (self1, w1) →
  ∃ self0 w0,
    commits pre (self, w) (self0, w0)
    ∧ run prev (store self0) (inspected self0 prev w0) = (Ok (store self1), w1)
    ∧ interrupt (store self1) = false.
Proof.
  revert self w. induction pre as [|item pre IH]; intros self w Hc; simpl in Hc.
  - inversion Hc as [|? ? ? ? r w' ? Hrun Hint Hnil]; subst.
    inversion Hnil; subst. exists self, w. split; [constructor|]. done.
  - inversion Hc as [|? ? ? ? r w' ? Hrun Hint Hrest]; subst.
    destruct (IH _ _ Hrest) as (self0 & w0 & Hpre & Hprev & Hi).
    exists self0, w0. split; [|done]. by econstructor.
Qed.

(** The loop when [interrupt] first holds after [item]. *)
Lemma _run_pipe_interrupted pre item post self w self1 w1 r w2 :
  commits pre (self, w) (self1, w1) →
  run item (store self1) (inspected self1 item w1) = (Ok r, w2) →
  interrupt r = true →
  _run_pipe (pre ++ item :: post) self w = (Ok (after_pipe r), self1, w2).
Proof.
  intros Hc Hrun Hint.
  by rewrite (_run_pipe_commits _ _ _ _ _ _ Hc), _run_pipe_cons, Hrun, Hint.
Qed.

(** C3, as amended. When [interrupt] first holds on the output [r] of a
    step, after the steps [pre] before it have committed, [self.store] is
    left as those steps committed it -- the initial store if there are none,
    else what the last of them returned -- and not set to [r], while the
    value returned is [after_pipe r]; the value returned is the store left
    exactly when [after_pipe r] is the committed store. *)
Theorem interrupted_pipe_store_not_committed pre item post self w self1 w1 r w2 :
  commits pre (self, w) (self1, w1) →
  run item (store self1) (inspected self1 item w1) = (Ok r, w2) →
  interrupt r = true →
  let out := _run_pipe (pre ++ item :: post) self w in
  out.1.1 = Ok (after_pipe r)
  ∧ store out.1.2 = store self1
  ∧ (pre = [] → store out.1.2 = store self)
  ∧ (∀ pre' prev, pre = pre' ++ [prev] →
       ∃ self0 w0, commits pre' (self, w) (self0, w0) ∧
         run prev (store self0) (inspected self0 prev w0) = (Ok (store out.1.2), w1))
  ∧ (out.1.1 = Ok (store out.1.2) ↔ after_pipe r = store self1).
Proof.
  intros Hc Hrun Hint out. unfold out.
  rewrite (_run_pipe_interrupted _ _ _ _ _ _ _ _ _ Hc Hrun Hint). simpl.
  repeat split.
  - intros ->. by inversion Hc.
  - intros pre' prev ->.
    destruct (commits_snoc _ _ _ _ _ _ Hc) as (self0 & w0 & ? & ? & ?). eauto.
  - intros Heq. by injection Heq.
  - by intros ->.
Qed.

(** C4. When [interrupt] first holds on the output [r] of the step at some
    position, [_run_pipe] returns [after_pipe r] and ends in the world in
    which that step returned, whatever steps [post] follow: the log holds
    no call made after it, so none of them ran. *)
Theorem interrupted_pipe_stops pre item post self w self1 w1 r w2 :
  commits pre (self, w) (self1, w1) →
  run item (store self1) (inspected self1 item w1) = (Ok r, w2) →
  interrupt r = true →
  let out := _run_pipe (pre ++ item :: post) self w in
  out.1.1 = Ok (after_pipe r)
  ∧ out.2 = w2
  ∧ calls out.2 = calls (run item (store self1) (inspected self1 item w1)).2
  ∧ out = _run_pipe (pre ++ [item]) self w.
Proof.
  intros Hc Hrun Hint out. unfold out.
  rewrite !(_run_pipe_interrupted _ _ _ _ _ _ _ _ _ Hc Hrun Hint).
  by rewrite Hrun.
Qed.

(** ** Pure steps and repeated runs *)

Lemma reachable_run w0 w s C :
  reachable w0 w → reachable w0 (run s C w).2.
Proof. intros Hr. eapply rtc_r; [done|constructor]. Qed.

Lemma reachable_inspected w0 w self item :
  reachable w0 w → reachable w0 (inspected self item w).
Proof.
  intros Hr. unfold inspected. destruct (__inspection_mode self); [|done].
  eapply rtc_r; [done|]. apply world_step_print.
Qed.

Lemma reachable__run_pipe w0 items self w :
  reachable w0 w → reachable w0 (_run_pipe items self w).2.
Proof.
  revert self w. induction items as [|item items IH]; intros self w Hr; [done|].
  rewrite _run_pipe_cons.
  pose proof (reachable_run w0 _ item (store self) (reachable_inspected _ _ self item Hr)) as Hr'.
  destruct (run item (store self) (inspected self item w)) as [[r|e] w']; simpl in *; [|done].
  destruct (interrupt r); [done|]. by apply IH.
Qed.

(** A sequence of pure steps gives the same result and leaves the same
    store in any two worlds the framework can be in. *)
Lemma _run_pipe_pure w0 items :
  Forall (pure_step w0) items →
  ∀ self w w', reachable w0 w → reachable w0 w' →
    (_run_pipe items self w).1 = (_run_pipe items self w').1.
Proof.
  induction 1 as [|item items [f Hf] Hitems IH]; intros self w w' Hr Hr'; [done|].
  rewrite !_run_pipe_cons.
  pose proof (reachable_inspected _ _ self item Hr) as Hi.
  pose proof (reachable_inspected _ _ self item Hr') as Hi'.
  pose proof (Hf _ (store self) Hi) as Hres.
  pose proof (Hf _ (store self) Hi') as Hres'.
  pose proof (reachable_run _ _ item (store self) Hi) as Hn.
  pose proof (reachable_run _ _ item (store self) Hi') as Hn'.
  destruct (run item (store self) (inspected self item w)) as [r1 w1].
  destruct (run item (store self) (inspected self item w')) as [r2 w2].
  simpl in *. subst r1 r2.
  destruct (f (store self)) as [r|e]; [|done].
  destruct (interrupt r); [done|]. by apply IH.
Qed.

(** C9. If every step of the sequence is a pure function of its input
    container, two runs of the pipe, each started on a pipe object
    constructed from the same initial mapping, the second in the world the
    first one left, end alike: the same container returned (or the same
    exception raised), and the same store left in the pipe object. *)
Theorem pure_pipe_runs_agree w0 items initial inspection :
  Forall (pure_step w0) items →
  let first := _run_pipe items (__init__ initial inspection) w0 in
  let second := _run_pipe items (__init__ initial inspection) first.2 in
  first.1.1 = second.1.1 ∧ store first.1.2 = store second.1.2.
Proof.
  intros Hpure first second.
  assert (first.1 = second.1) as ->; [|done].
  apply (_run_pipe_pure w0); [done|done|].
  by apply reachable__run_pipe.
Qed.

(** *** Stateless instances are pure steps *)

Implicit Types (id : nat) (inst : instance).

Lemma world_eta w : World (objs w) (dicts w) (console w) (calls w) = w.
Proof. by destruct w. Qed.

Lemma dispatch_stateless id inst names C w :
  objs w !! id = Some inst → stateless inst →
  dispatch id names C w =
    (match dispatch_function inst names C with
     | Some (Ok store') => Ok (Some store')
     | Some (Raise e) => Raise e
     | None => Ok None
     end, w).
Proof.
  intros Hself [_ Hattrs]. induction names as [|method names IH]; [done|].
  simpl. unfold bind at 1, get_instance, bind at 1, gets. simpl. rewrite Hself. simpl.
  destruct (attrs inst !! method); [done|].
  destruct (methods inst !! method) as [f|] eqn:Hf; [|done].
  specialize (Hattrs _ _ Hf (attrs inst) C).
  destruct (f (attrs inst) C) as [r attrs']. simpl in *. subst attrs'.
  unfold bind, set_instance, modify. simpl.
  replace (Instance _ _ _ _ _) with inst by by destruct inst.
  rewrite insert_id by done. rewrite world_eta. by destruct r.
Qed.

Lemma Step_run_stateless id inst C w :
  objs w !! id = Some inst → stateless inst →
  Step_run id C w = (step_function inst C, w).
Proof.
  intros Hself Hst. unfold Step_run, step_function.
  unfold bind at 1, get_instance, bind at 1, gets. simpl. rewrite Hself. simpl.
  destruct Hst as [Hnone Hattrs]. rewrite Hnone.
  unfold bind at 1. simpl. unfold bind.
  rewrite (dispatch_stateless _ inst) by done.
  by destruct (dispatch_function _ _ _) as [[?|?]|].
Qed.

Lemma run_keeps_stateless id inst s C w :
  objs w !! id = Some inst → stateless inst →
  objs (run s C w).2 !! id = Some inst.
Proof.
  intros Hself Hst. revert C w Hself.
  induction s as [id'|A IHA B IHB|A IHA B IHB]; intros C w Hself.
  - simpl. unfold bind at 1. simpl. set (w0 := World _ _ _ _).
    destruct (decide (id' = id)) as [->|Hne].
    + by rewrite (Step_run_stateless _ inst).
    + rewrite (preserves_Step_run (λ w, objs w !! id) id'); [done| |done].
      intros inst' w'. simpl. by rewrite lookup_insert_ne.
  - rewrite run_AndStep.
    pose proof (IHA C (entered (AndStep A B) C w) Hself) as HA.
    destruct (run A C _) as [[ra|e] w1]; simpl in *; [|done].
    pose proof (IHB C w1 HA) as HB.
    by destruct (run B C w1) as [[rb|e] w2].
  - rewrite run_OrStep.
    pose proof (IHA C (entered (OrStep A B) C w) Hself) as HA.
    destruct (run A C _) as [[ra|e] w1]; simpl in *; [done|].
    destruct (is_Exception e); [by apply IHB|done].
Qed.

Lemma reachable_keeps_stateless id inst w0 w :
  objs w0 !! id = Some inst → stateless inst →
  reachable w0 w → objs w !! id = Some inst.
Proof.
  intros Hself Hst Hr. induction Hr as [|w1 w2 w3 Hstep _ IH]; [done|].
  apply IH. destruct Hstep; [by apply run_keeps_stateless|done].
Qed.

(** A stateless instance is a pure step, in any world that holds it. *)
Lemma stateless_pure_step id inst w0 :
  objs w0 !! id = Some inst → stateless inst → pure_step w0 (Atom id).
Proof.
  intros Hself Hst. exists (step_function inst). intros w C Hr.
  simpl. unfold bind at 1. simpl.
  rewrite (Step_run_stateless _ inst); [done| |done].
  simpl. by apply (reachable_keeps_stateless _ _ w0).
Qed.

(** ** Validation *)

(** With the empty schema, [_parse_dynamic_fields] rebinds
    [required_fields] to a new empty dictionary. *)
Lemma _parse_dynamic_fields_empty id inst w :
  objs w !! id = Some inst →
  self_required_fields id w = Some [] →
  ∃ l' inst',
    _parse_dynamic_fields id w =
      (Ok tt, World (<[id := inst']> (objs w)) (<[l' := []]> (dicts w)) (console w) (calls w))
    ∧ required_fields inst' = Some l'
    ∧ cls_name inst' = cls_name inst.
Proof.
  intros Hid Hrf. unfold self_required_fields in Hrf. rewrite Hid in Hrf. simpl in Hrf.
  destruct (required_fields inst) as [l|] eqn:Hl; [|done]. simpl in Hrf.
  eexists (fresh (dom (dicts w))), _.
  unfold _parse_dynamic_fields.
  unfold bind at 1, get_instance, bind at 1, gets. simpl. rewrite Hid. simpl. rewrite Hl.
  unfold bind at 1, get_dict, bind at 1, gets. simpl. rewrite Hrf. simpl.
  unfold bind at 1. simpl. unfold bind at 1, bind at 1, gets. simpl. rewrite Hrf. simpl.
  unfold bind at 1. simpl.
  unfold bind, alloc_dict, gets, set_dict, set_instance, modify, bind. simpl.
  rewrite Hid. simpl. split; [reflexivity|]. done.
Qed.

Lemma of_result_eq {X} (r : result X) w : of_result r w = (r, w).
Proof. by destruct r. Qed.

(** C7. With a validator that accepts every container against the empty
    schema, as [valideer] does, a step whose [required_fields] is the empty
    mapping raises no validation error on any container [C]: [validate]
    ends as the copy of [C] with the adapted entries does -- it returns, or
    raises [TypeError] if one of them is called [self] -- and if [run]
    raises a [StepValidationException], validation had returned and the
    capability method [run] dispatched to raised it. *)
Theorem empty_required_fields_pass_validation id inst C w :
  (∀ store, ∃ adapted, V_validate [] store = Adapted adapted) →
  objs w !! id = Some inst →
  self_required_fields id w = Some [] →
  let w0 := entered (Atom id) C w in
  ∃ adapted,
    V_validate [] C = Adapted adapted
    ∧ (validate id C w0).1 = copy_kwargs C adapted
    ∧ (∀ msg, (validate id C w0).1 ≠ Raise (StepValidationException msg))
    ∧ ∀ msg, (run (Atom id) C w).1 = Raise (StepValidationException msg) →
        ∃ store', (validate id C w0).1 = Ok store'
          ∧ (dispatch id (_available_methods inst) store' (validate id C w0).2).1
            = Raise (StepValidationException msg).
Proof.
  intros Haccept Hid Hrf w0. destruct (Haccept C) as [adapted Hadapted].
  rewrite run_Atom. fold w0.
  assert (objs w0 !! id = Some inst) as Hid0 by done.
  assert (self_required_fields id w0 = Some []) as Hrf0 by done.
  clearbody w0.
  destruct (_parse_dynamic_fields_empty _ _ _ Hid0 Hrf0) as (l' & inst' & Hparse & Hl' & Hcls).
  assert (∃ w', validate id C w0 = (copy_kwargs C adapted, w')) as [w' Hval].
  { eexists. unfold validate. unfold bind at 1. rewrite Hparse.
    unfold bind at 1, get_instance, bind at 1, gets. simpl.
    rewrite lookup_insert_eq. simpl.
    unfold bind, gets, self_required_fields. simpl.
    rewrite lookup_insert_eq. simpl. rewrite Hl'. simpl.
    rewrite lookup_insert_eq. simpl. rewrite Hadapted. apply of_result_eq. }
  exists adapted. split; [done|]. rewrite Hval. simpl. split; [done|]. split.
  { intros msg. unfold copy_kwargs. by case_decide. }
  intros msg. unfold Step_run. unfold bind at 1, get_instance, bind at 1, gets. simpl.
  rewrite Hid0. simpl.
  assert (is_Some (required_fields inst)) as [l Hl].
  { unfold self_required_fields in Hrf. rewrite Hid in Hrf. simpl in Hrf.
    destruct (required_fields inst); [eauto|done]. }
  rewrite Hl. unfold bind at 1. rewrite Hval.
  destruct (copy_kwargs C adapted) as [store'|e'] eqn:Hcopy.
  - unfold bind. intros Hrun. exists store'. split; [done|].
    destruct (dispatch id (_available_methods inst) store' w') as [[[r|]|e] w''];
      simpl in *; [discriminate Hrun|discriminate Hrun|].
    by injection Hrun as ->.
  - intros Hrun. simpl in Hrun. injection Hrun as ->.
    unfold copy_kwargs in Hcopy. by case_decide.
Qed.

(** ** Dynamic field resolution *)

(** *** Dictionaries *)

Implicit Types (d : Dict.t rule) (k key : string) (r : rule).

Lemma dict_del_filter k d : Dict.del k d = filter (λ entry, entry.1 ≠ k) d.
Proof.
  induction d as [|[k' r] d IH]; [done|].
  rewrite filter_cons, <- IH. simpl.
  destruct (decide (k' = k)), (decide (k' ≠ k)); done.
Qed.

Lemma dict_get_None k d : k ∉ Dict.keys d → Dict.get k d = None.
Proof.
  induction d as [|[k' r] d IH]; [done|]. simpl.
  rewrite not_elem_of_cons. intros [Hne Hk].
  destruct (decide (k' = k)); [done|]. by apply IH.
Qed.

Lemma dict_get_elem_of k r d : Dict.get k d = Some r → (k, r) ∈ d.
Proof.
  induction d as [|[k' r'] d IH]; [done|]. simpl.
  destruct (decide (k' = k)) as [->|].
  - intros [= ->]. by left.
  - intros Hget. right. by apply IH.
Qed.

Lemma dict_get_Some k r d : NoDup (Dict.keys d) → (k, r) ∈ d → Dict.get k d = Some r.
Proof.
  induction d as [|[k' r'] d IH]; [by intros _ ?%elem_of_nil|]. simpl.
  rewrite NoDup_cons. intros [Hk' Hnd]. rewrite elem_of_cons. intros [[= -> ->]|Hin].
  - by rewrite decide_True.
  - rewrite decide_False; [by apply IH|]. intros ->. apply Hk'.
    unfold Dict.keys. by apply (list_elem_of_fmap_2 fst _ (k, r)).
Qed.

Lemma dict_get_app k d1 d2 :
  Dict.get k (d1 ++ d2) = from_option Some (Dict.get k d2) (Dict.get k d1).
Proof.
  induction d1 as [|[k' r] d1 IH]; [done|]. simpl.
  by destruct (decide (k' = k)).
Qed.

Lemma dict_get_del_ne k k' d : k ≠ k' → Dict.get k' (Dict.del k d) = Dict.get k' d.
Proof.
  intros Hne. induction d as [|[k0 r] d IH]; [done|]. simpl.
  destruct (decide (k0 = k)) as [->|]; simpl.
  - by rewrite decide_False.
  - by rewrite IH.
Qed.

Lemma dict_update_fresh k r d : k ∉ Dict.keys d → Dict.update k r d = d ++ [(k, r)].
Proof.
  induction d as [|[k' r'] d IH]; [done|]. simpl.
  rewrite not_elem_of_cons. intros [Hne Hk].
  rewrite decide_False by done. by rewrite IH.
Qed.

Lemma dict_merge_kwargs_disjoint d1 d2 :
  (∀ k, k ∈ Dict.keys d2 → k ∉ Dict.keys d1) →
  Dict.merge_kwargs d1 d2 = Some (d1 ++ d2).
Proof.
  intros Hdisj. unfold Dict.merge_kwargs. rewrite decide_False; [done|].
  rewrite Exists_exists. intros (k & Hk2 & Hk1). by apply (Hdisj k).
Qed.

Lemma filter_ext_elem_of {X} (P Q : X → Prop)
    `{!∀ x, Decision (P x), !∀ x, Decision (Q x)} (l : list X) :
  (∀ x, x ∈ l → P x ↔ Q x) → filter P l = filter Q l.
Proof.
  induction l as [|x l IH]; intros Hext; [done|].
  rewrite !filter_cons, IH by (intros; apply Hext; by right).
  apply decide_ext, Hext. by left.
Qed.

Lemma filter_all {X} (P : X → Prop) `{!∀ x, Decision (P x)} (l : list X) :
  (∀ x, x ∈ l → P x) → filter P l = l.
Proof.
  induction l as [|x l IH]; intros Hall; [done|].
  rewrite filter_cons_True by (apply Hall; by left).
  rewrite IH; [done|]. intros; apply Hall; by right.
Qed.

(** *** The loop of [_parse_dynamic_fields] *)

Lemma getattr_resolved id inst key v w :
  objs w !! id = Some inst → resolved inst key = Some v →
  getattr id (variable_of key) w = (Ok (VStr v), w).
Proof.
  intros Hid Hres. unfold resolved in Hres.
  unfold getattr, bind, get_instance, bind, gets. simpl. rewrite Hid. simpl.
  destruct (attrs inst !! variable_of key) as [[]|]; try done.
  by injection Hres as ->.
Qed.

Lemma dynamic_rekeyed_cons_dynamic inst k r v d :
  is_dynamic k = true → resolved inst k = Some v →
  dynamic_rekeyed inst ((k, r) :: d) = (v, r) :: dynamic_rekeyed inst d.
Proof. intros Hdyn Hres. unfold dynamic_rekeyed. simpl. by rewrite Hdyn, Hres. Qed.

Lemma dynamic_rekeyed_cons_static inst k r d :
  is_dynamic k = false →
  dynamic_rekeyed inst ((k, r) :: d) = dynamic_rekeyed inst d.
Proof. intros Hdyn. unfold dynamic_rekeyed. simpl. by rewrite Hdyn. Qed.

(** Run over the keys of the entries [es], which the dictionary at [l]
    still holds, the loop deletes the dynamic ones from that dictionary
    and collects them, re-keyed, in [dynamic_config]. *)
Lemma parse_loop_rekeys id inst l es :
  ∀ dcur dynamic_config w,
    objs w !! id = Some inst →
    dicts w !! l = Some dcur →
    NoDup (Dict.keys es) →
    (∀ k r, (k, r) ∈ es → Dict.get k dcur = Some r) →
    (∀ k, k ∈ Dict.keys es → is_dynamic k → is_Some (resolved inst k)) →
    non_string_key dynamic_config = false →
    NoDup (Dict.keys (items dynamic_config) ++ Dict.keys (dynamic_rekeyed inst es)) →
    parse_loop id l (Dict.keys es) dynamic_config w =
      (Ok (Kwargs (items dynamic_config ++ dynamic_rekeyed inst es) false),
       World (objs w)
             (<[l := filter (λ entry, ¬ (is_dynamic entry.1 ∧ entry.1 ∈ Dict.keys es)) dcur]>
                (dicts w))
             (console w) (calls w)).
Proof.
  induction es as [|[k r] es IH]; intros dcur dc w Hid Hl Hnd Hget Hres Hstr Hfresh.
  - simpl. unfold ret. f_equal.
    + destruct dc as [its ns]. simpl in *. subst ns. by rewrite app_nil_r.
    + rewrite filter_all.
      * rewrite insert_id by done. by rewrite world_eta.
      * intros entry _ [_ Hin]. by apply elem_of_nil in Hin.
  - change (Dict.keys ((k, r) :: es)) with (k :: Dict.keys es) in *.
    apply NoDup_cons in Hnd as [Hk Hnd].
    cbn [parse_loop]. destruct (is_dynamic k) eqn:Hdyn.
    + destruct (Hres k) as [v Hv]; [by left|by rewrite Hdyn|].
      rewrite (dynamic_rekeyed_cons_dynamic _ _ _ v) in * by done.
      change (re_sub_braces k) with (re_sub_braces k).
      change (replace_plus (re_sub_braces k)) with (variable_of k).
      unfold bind at 1. rewrite (getattr_resolved _ inst _ v) by done.
      unfold bind at 1, get_dict, bind at 1, gets. simpl. rewrite Hl. simpl.
      rewrite (Hget k r) by by left.
      unfold bind, set_dict, modify. simpl.
      change (Dict.keys ((v, r) :: dynamic_rekeyed inst es))
        with (v :: Dict.keys (dynamic_rekeyed inst es)) in Hfresh.
      assert (v ∉ Dict.keys (items dc)) as Hv'.
      { apply NoDup_app in Hfresh as (_ & Hdisj & _). intros Hin.
        apply (Hdisj v Hin). by left. }
      unfold kwargs_update. rewrite Hstr, (dict_update_fresh _ _ _ Hv').
      rewrite (IH (Dict.del k dcur)); simpl.
      * rewrite insert_insert_eq, <- app_assoc. simpl. do 3 f_equal.
        rewrite dict_del_filter, list_filter_filter. apply list_filter_iff.
        intros [k' r']. simpl. rewrite elem_of_cons. split.
        -- intros [Hno Hne] [Hd [->|Hin]]; [done|]. by apply Hno.
        -- intros Hno. split.
           ++ intros [Hd Hin]. apply Hno. auto.
           ++ intros ->. apply Hno. split; [by rewrite Hdyn|by left].
      * done.
      * by rewrite lookup_insert_eq.
      * done.
      * intros k' r' Hin. rewrite dict_get_del_ne; [apply Hget; by right|].
        intros ->. apply Hk. unfold Dict.keys. by apply (list_elem_of_fmap_2 fst _ (k', r')).
      * intros k' Hin. apply Hres. by right.
      * done.
      * unfold Dict.keys in *. rewrite fmap_app, <- app_assoc. done.
    + rewrite (dynamic_rekeyed_cons_static _ _ _ _ Hdyn) in *.
      rewrite (IH dcur dc w Hid Hl Hnd); [| | |done|done].
      * do 3 f_equal. apply list_filter_iff.
        intros [k' r']. simpl. rewrite elem_of_cons. split.
        -- intros Hno [Hd [->|Hin]]; [by rewrite Hdyn in Hd|]. by apply Hno.
        -- intros Hno [Hd Hin]. apply Hno. auto.
      * intros k' r' Hin. apply Hget. by right.
      * intros k' Hin. apply Hres. by right.
Qed.

Lemma dict_get_filter_key (P : string → Prop) `{!∀ k, Decision (P k)} k d :
  P k → Dict.get k (filter (λ entry, P entry.1) d) = Dict.get k d.
Proof.
  intros HP. induction d as [|[k' r] d IH]; [done|].
  rewrite filter_cons. simpl. destruct (decide (k' = k)) as [->|Hne].
  - rewrite decide_True by done. simpl. by rewrite decide_True.
  - case_decide; simpl; [by rewrite decide_False|done].
Qed.

Lemma dict_get_filter_key_None (P : string → Prop) `{!∀ k, Decision (P k)} k d :
  ¬ P k → Dict.get k (filter (λ entry, P entry.1) d) = None.
Proof.
  intros HP. apply dict_get_None. unfold Dict.keys.
  intros Hin. apply list_elem_of_fmap in Hin as ([k' r] & Hk & Hin).
  apply list_elem_of_filter in Hin as [HP' _]. simpl in *. by subst k'.
Qed.

Lemma static_part_get_static k d :
  ¬ is_dynamic k → Dict.get k (static_part d) = Dict.get k d.
Proof. intros Hk. exact (dict_get_filter_key (λ k, ¬ is_dynamic k) k d Hk). Qed.

Lemma static_part_get_dynamic k d :
  is_dynamic k → Dict.get k (static_part d) = None.
Proof.
  intros Hk. refine (dict_get_filter_key_None (λ k, ¬ is_dynamic k) k d _). tauto.
Qed.

Lemma elem_of_dict_keys k r d : (k, r) ∈ d → k ∈ Dict.keys d.
Proof. intros Hin. unfold Dict.keys. by apply (list_elem_of_fmap_2 fst _ (k, r)). Qed.

(** [_parse_dynamic_fields] when every dynamic key resolves to a string
    that is no key of the schema, different keys to different strings:
    the dictionary [required_fields] pointed to keeps its literal entries,
    and [required_fields] is rebound to a new dictionary, the schema
    re-keyed. *)
Lemma _parse_dynamic_fields_rekeys id inst l d w :
  objs w !! id = Some inst →
  required_fields inst = Some l →
  dicts w !! l = Some d →
  (∀ k, k ∈ Dict.keys d → is_dynamic k → is_Some (resolved inst k)) →
  NoDup (Dict.keys (dynamic_rekeyed inst d) ++ Dict.keys d) →
  ∃ l',
    _parse_dynamic_fields id w =
      (Ok tt,
       World (<[id := Instance (cls_name inst) (_available_methods inst) (methods inst)
                               (attrs inst) (Some l')]> (objs w))
             (<[l' := rekeyed inst d]> (<[l := static_part d]> (dicts w)))
             (console w) (calls w)).
Proof.
  intros Hid Hl Hd Hres Hfresh.
  apply NoDup_app in Hfresh as (Hnd' & Hdisj & Hnd).
  eexists. unfold _parse_dynamic_fields.
  unfold bind at 1, get_instance, bind at 1, gets. simpl. rewrite Hid. simpl. rewrite Hl.
  unfold bind at 1, get_dict, bind at 1, gets. simpl. rewrite Hd. simpl.
  unfold bind at 1.
  rewrite (parse_loop_rekeys id inst l d d (Kwargs [] false) w); try done; cycle 1.
  { intros k r Hin. by apply dict_get_Some. }
  simpl app.
  rewrite (filter_ext_elem_of _ (λ entry, ¬ is_dynamic entry.1)); cycle 1.
  { intros [k r] Hin%elem_of_dict_keys. simpl. tauto. }
  fold (static_part d).
  unfold bind at 1, bind at 1, gets. simpl. rewrite lookup_insert_eq. simpl.
  unfold bind at 1, dict_kwargs. simpl.
  rewrite dict_merge_kwargs_disjoint; cycle 1.
  { intros k Hk Hin. apply (Hdisj k Hk). unfold Dict.keys, static_part in *.
    apply list_elem_of_fmap in Hin as (entry & -> & [_ Hin]%list_elem_of_filter).
    by apply list_elem_of_fmap_2. }
  fold (rekeyed inst d). simpl.
  unfold bind, alloc_dict, bind, gets, set_dict, set_instance, modify. simpl.
  rewrite Hid. simpl. reflexivity.
Qed.

(** C8, as amended. Take a step whose schema [d] has distinct keys, each
    dynamic key naming an attribute that holds a string, those strings being
    different from one another and from every key of [d].  Then a call of
    [validate] validates the container against the schema re-keyed (the
    literal entries, then each dynamic entry under the string it resolves
    to) and leaves [required_fields] bound to that schema: each dynamic
    entry is found under its string and no longer under its braced key, and
    each literal entry is where it was. *)
Theorem dynamic_fields_rekeyed id inst d C w :
  objs w !! id = Some inst →
  self_required_fields id w = Some d →
  (∀ k, k ∈ Dict.keys d → is_dynamic k → is_Some (resolved inst k)) →
  NoDup (Dict.keys (dynamic_rekeyed inst d) ++ Dict.keys d) →
  let out := validate id C w in
  let d' := rekeyed inst d in
  out.1 = validated inst d' C
  ∧ self_required_fields id out.2 = Some d'
  ∧ (∀ key r, Dict.get key d = Some r → is_dynamic key →
       ∃ v, resolved inst key = Some v ∧ Dict.get v d' = Some r ∧ Dict.get key d' = None)
  ∧ (∀ key r, Dict.get key d = Some r → ¬ is_dynamic key → Dict.get key d' = Some r).
Proof.
  intros Hid Hrf Hres Hfresh out d'.
  assert (∃ l, required_fields inst = Some l ∧ dicts w !! l = Some d) as (l & Hl & Hd).
  { unfold self_required_fields in Hrf. rewrite Hid in Hrf. simpl in Hrf.
    destruct (required_fields inst) as [l|]; [eauto|done]. }
  destruct (_parse_dynamic_fields_rekeys _ _ _ _ _ Hid Hl Hd Hres Hfresh) as [l' Hparse].
  assert (out = (validated inst d' C,
                 World (<[id := Instance (cls_name inst) (_available_methods inst)
                                         (methods inst) (attrs inst) (Some l')]> (objs w))
                       (<[l' := d']> (<[l := static_part d]> (dicts w)))
                       (console w) (calls w))) as ->.
  { unfold out, validate. unfold bind at 1. rewrite Hparse.
    unfold bind at 1, get_instance, bind at 1, gets. simpl.
    rewrite lookup_insert_eq. simpl.
    unfold bind, gets, self_required_fields. simpl.
    rewrite lookup_insert_eq. simpl. rewrite lookup_insert_eq. simpl.
    unfold validated. simpl.
    destruct (V_validate _ C); [apply of_result_eq|done|done]. }
  apply NoDup_app in Hfresh as (Hnd' & Hdisj & Hnd).
  split; [done|]. split.
  { unfold self_required_fields. simpl. rewrite lookup_insert_eq. simpl.
    by rewrite lookup_insert_eq. }
  unfold d', rekeyed. split.
  - intros key r Hget Hdyn.
    pose proof (dict_get_elem_of _ _ _ Hget) as Hin.
    destruct (Hres key) as [v Hv]; [by eapply elem_of_dict_keys|done|].
    assert ((v, r) ∈ dynamic_rekeyed inst d) as Hin'.
    { unfold dynamic_rekeyed. apply list_elem_of_omap. exists (key, r).
      split; [done|]. simpl. rewrite (Is_true_true_1 _ Hdyn), Hv. done. }
    exists v. split; [done|]. rewrite !dict_get_app. split.
    + assert (Dict.get v (static_part d) = None) as ->.
      { apply dict_get_None. intros Hk. apply (Hdisj v); [by eapply elem_of_dict_keys|].
        unfold Dict.keys, static_part in *.
        apply list_elem_of_fmap in Hk as (entry & -> & [_ Hk]%list_elem_of_filter).
        by apply list_elem_of_fmap_2. }
      simpl. by apply dict_get_Some.
    + rewrite static_part_get_dynamic by done.
      simpl. apply dict_get_None. intros Hk. apply (Hdisj key Hk). by eapply elem_of_dict_keys.
  - intros key r Hget Hdyn. rewrite dict_get_app.
    by rewrite static_part_get_static, Hget.
Qed.

(** * Further properties of the code *)

(** ** Composition *)

(** [A & B] raises nothing that is an instance of [Exception]: what it
    raises, one of its branches raised, and no [except Exception] clause
    takes it.  So a fallback put after it with [|] is never run:
    [((A & B) | F).run(C)] is [(A & B).run(C)], whatever the branches do. *)
Theorem fallback_after_and_step_never_runs A B F C w :
  (∀ e, (run (AndStep A B) C w).1 = Raise e →
     is_Exception e = false
     ∧ let w0 := entered (AndStep A B) C w in
       (run A C w0).1 = Raise e
       ∨ ∃ result_a, (run A C w0).1 = Ok result_a
                     ∧ (run B C (run A C w0).2).1 = Raise e)
  ∧ run (OrStep (AndStep A B) F) C w
    = run (AndStep A B) C (entered (OrStep (AndStep A B) F) C w).
Proof.
  assert (∀ w' e, (run (AndStep A B) C w').1 = Raise e → is_Exception e = false) as Hbase.
  { intros w' e. rewrite run_AndStep. unfold swallowed.
    destruct (run A C _) as [[ra|ea] w1]; simpl.
    - destruct (run B C w1) as [[rb|eb] w2]; simpl; [done|].
      destruct (is_Exception eb) eqn:Heb; [done|]. by intros [= <-].
    - destruct (is_Exception ea) eqn:Hea; [done|]. by intros [= <-]. }
  split.
  - intros e He. split; [by eapply Hbase|]. revert He.
    rewrite run_AndStep. unfold swallowed.
    destruct (run A C _) as [[ra|ea] w1]; simpl.
    + destruct (run B C w1) as [[rb|eb] w2]; simpl; [done|].
      destruct (is_Exception eb); [done|]. intros [= <-]. right. by exists ra.
    + destruct (is_Exception ea); [done|]. intros [= <-]. by left.
  - rewrite run_OrStep.
    pose proof (Hbase (entered (OrStep (AndStep A B) F) C w)) as He.
    destruct (run (AndStep A B) C _) as [[r|e] w1]; [done|].
    by rewrite (He e eq_refl).
Qed.

(** What comes out of [A | B] when it raises: [A] raised some [e]; if [e]
    is an instance of [Exception], [B] ran on the container carrying [e] and
    raised what comes out -- the exception of [A] itself does not --, and
    if it is not, [e] itself comes out. *)
Theorem or_step_raises_what_obj_b_raises A B C w e' :
  let w0 := entered (OrStep A B) C w in
  (run (OrStep A B) C w).1 = Raise e' →
  ∃ e, (run A C w0).1 = Raise e
       ∧ if is_Exception e
         then (run B (<["exception" := VExn e]> C) (run A C w0).2).1 = Raise e'
         else e' = e ∧ (run (OrStep A B) C w).2 = (run A C w0).2.
Proof.
  intros w0. rewrite run_OrStep. fold w0.
  destruct (run A C w0) as [[r|e] w1]; simpl; [done|].
  intros Hraise. exists e. split; [done|].
  destruct (is_Exception e).
  - unfold copy in Hraise. by rewrite <- insert_union_singleton_l in Hraise.
  - simpl in *. by injection Hraise as ->.
Qed.

(** In a chain [A | (B | F)] the last fallback sees the latest exception
    only: when [A] raises [e1] and then [B] raises [e2], both instances of
    [Exception], [F] runs on [C] with [exception] set to [e2], and [e1] is
    gone from the container. *)
Theorem or_chain_keeps_latest_exception A B F C w e1 e2 :
  let w0 := entered (OrStep A (OrStep B F)) C w in
  let C1 := <["exception" := VExn e1]> C in
  let w1 := entered (OrStep B F) C1 (run A C w0).2 in
  (run A C w0).1 = Raise e1 →
  is_Exception e1 = true →
  (run B C1 w1).1 = Raise e2 →
  is_Exception e2 = true →
  run (OrStep A (OrStep B F)) C w
    = run F (<["exception" := VExn e2]> C) (run B C1 w1).2.
Proof.
  intros w0 C1 w1 HA He1 HB He2.
  rewrite run_OrStep. fold w0. subst w1.
  destruct (run A C w0) as [[r|e] wA]; simpl in HA, HB; [done|].
  injection HA as ->. rewrite He1. cbn [fst snd]. unfold copy at 1.
  rewrite <- insert_union_singleton_l. fold C1.
  rewrite run_OrStep.
  destruct (run B C1 (entered (OrStep B F) C1 wA)) as [[r|e] wB]; simpl in HB; [done|].
  injection HB as ->. rewrite He2. cbn [fst snd]. unfold copy, C1.
  by rewrite <- insert_union_singleton_l, insert_insert_eq.
Qed.

(** ** Dispatch *)

Lemma dispatch_skips id inst (names rest : list string) C w :
  objs w !! id = Some inst →
  (∀ name, name ∈ names → lacks inst name) →
  dispatch id (names ++ rest) C w = dispatch id rest C w.
Proof.
  intros Hid. induction names as [|name names IH]; intros Hpre; [done|].
  destruct (Hpre name) as [Ha Hm]; [by left|].
  simpl. unfold bind at 1, get_instance, bind at 1, gets. simpl. rewrite Hid. simpl.
  rewrite Ha.
  destruct (methods inst !! name) as [f|]; [done|].
  apply IH. intros name' Hin. apply Hpre. by right.
Qed.

(** A step that has none of the methods named in [_available_methods]
    raises [StepExecutionException], naming them; nothing but the log has
    changed. *)
Theorem run_without_capability_method id inst C w :
  objs w !! id = Some inst →
  required_fields inst = None →
  (∀ name, name ∈ _available_methods inst → lacks inst name) →
  run (Atom id) C w =
    (Raise (StepExecutionException
              ("You should define one of this methods - " ++
               join "," (_available_methods inst))),
     entered (Atom id) C w).
Proof.
  intros Hid Hnone Hlacks. rewrite run_Atom. unfold Step_run.
  unfold bind at 1, get_instance, bind at 1, gets. simpl. rewrite Hid. simpl.
  rewrite Hnone. unfold bind at 1. simpl. unfold bind.
  rewrite <- (app_nil_r (_available_methods inst)) at 1.
  by rewrite (dispatch_skips id inst) by done.
Qed.


(** ** The executor: exceptions, completion, names *)

(** The executor handles no exception: when a step raises, after the steps
    before it have committed, [_run_pipe] raises the same exception, the
    store stays as committed and the steps after it do not run. *)
Theorem step_exception_aborts_pipe pre item post self w self1 w1 e w2 :
  commits pre (self, w) (self1, w1) →
  run item (store self1) (inspected self1 item w1) = (Raise e, w2) →
  _run_pipe (pre ++ item :: post) self w = (Raise e, self1, w2).
Proof.
  intros Hc Hrun.
  by rewrite (_run_pipe_commits _ _ _ _ _ _ Hc), _run_pipe_cons, Hrun.
Qed.

(** When every step commits, [_run_pipe] returns [after_pipe] of the store
    the last step left. *)
Lemma _run_pipe_completes items self w self1 w1 :
  commits items (self, w) (self1, w1) →
  _run_pipe items self w = (Ok (after_pipe (store self1)), self1, w1).
Proof.
  intros Hc. rewrite <- (app_nil_r items).
  by rewrite (_run_pipe_commits _ _ _ _ _ _ Hc).
Qed.

(** In a pipe class that never interrupts, as [BasePipe], a run that
    returns went through every step, and what it returns is [after_pipe] of
    the store it leaves in the pipe object. *)
Theorem uninterrupted_pipe_returns_its_store items self w R :
  (∀ store, interrupt store = false) →
  (_run_pipe items self w).1.1 = Ok R →
  commits items (self, w) ((_run_pipe items self w).1.2, (_run_pipe items self w).2)
  ∧ R = after_pipe (store (_run_pipe items self w).1.2).
Proof.
  intros Hnever. revert self w.
  induction items as [|item items IH]; intros self w.
  - simpl. intros [= <-]. split; [constructor|done].
  - rewrite _run_pipe_cons.
    destruct (run item (store self) (inspected self item w)) as [[r|e] w'] eqn:Hrun;
      [|done].
    rewrite Hnever. intros HR. destruct (IH _ _ HR) as [Hc ->].
    split; [|done]. econstructor; [exact Hrun|apply Hnever|exact Hc].
Qed.

(** [run_pipe] with a name the schema does not have runs nothing and raises
    nothing: it returns [after_pipe] of the current store, and the pipe
    object and the world are as before. *)
Theorem run_pipe_unknown_name pipe_schema name self w :
  pipe_schema !! name = None →
  run_pipe pipe_schema name self w = (Ok (after_pipe (store self)), self, w).
Proof. intros Hname. unfold run_pipe. by rewrite Hname. Qed.

(** ** Inspection *)

Lemma run_console s C : preserves console (run s C).
Proof.
  revert C. induction s as [id|A IHA B IHB|A IHA B IHB]; intros C; simpl.
  - apply preserves_bind; [done|]. intros _. by apply preserves_Step_run.
  - apply preserves_bind; [done|]. intros _.
    apply preserves_try_except; [|by intros].
    apply preserves_bind; [done|]. intros ra.
    apply preserves_bind; [done|]. by intros rb.
  - apply preserves_bind; [done|]. intros _.
    by apply preserves_try_except.
Qed.

(** With inspection off, running a pipe prints nothing. *)
Theorem inspection_off_prints_nothing items self w :
  __inspection_mode self = false →
  console (_run_pipe items self w).2 = console w.
Proof.
  revert self w. induction items as [|item items IH]; intros self w Hoff; [done|].
  rewrite _run_pipe_cons. unfold inspected. rewrite Hoff.
  pose proof (run_console item (store self) w) as Hc.
  destruct (run item (store self) w) as [[r|e] w']; simpl in *; [|done].
  destruct (interrupt r); [done|]. by rewrite IH.
Qed.

Lemma commits_inspection pre self w self1 w1 :
  commits pre (self, w) (self1, w1) →
  __inspection_mode self1 = __inspection_mode self.
Proof.
  intros Hc. remember (self, w) as start eqn:Hs. remember (self1, w1) as final eqn:Hf.
  revert self w Hs.
  induction Hc as [self' w'|item items self' w' r w'' final Hrun Hint Hc IH];
    intros self w Hs.
  - rewrite Hf in Hs. by injection Hs as -> ->.
  - injection Hs as -> ->. by rewrite (IH Hf _ _ eq_refl).
Qed.

(** With inspection on, the steps that were started are printed, one entry
    each, in the order of the sequence.  When the steps [pre] have
    committed, the console has one more entry for each of them, in their
    order, and a run of exactly these steps ends there; a step that comes
    next and does not commit -- it raises, or [interrupt] holds on what it
    returns -- is printed too, with the store it was started on, and
    nothing after it. *)
Theorem inspection_on_prints_started_steps pre self w self1 w1 :
  __inspection_mode self = true →
  commits pre (self, w) (self1, w1) →
  (console w1).*1 = (console w).*1 ++ pre
  ∧ (console (_run_pipe pre self w).2).*1 = (console w).*1 ++ pre
  ∧ ∀ item post,
      (∀ result, (run item (store self1) (inspected self1 item w1)).1 = Ok result →
                 interrupt result = true) →
      console (_run_pipe (pre ++ item :: post) self w).2
      = console w1 ++ [(item, store self1)]
      ∧ (console (_run_pipe (pre ++ item :: post) self w).2).*1
        = (console w).*1 ++ pre ++ [item].
Proof.
  intros Hon Hc.
  assert ((console w1).*1 = (console w).*1 ++ pre) as Hpre.
  { clear -Hon Hc. remember (self, w) as start eqn:Hs. remember (self1, w1) as final eqn:Hf.
    revert self w Hs Hon.
    induction Hc as [self' w'|item items self' w' r w'' final Hrun Hint Hc IH];
      intros self w Hs Hon.
    - rewrite Hf in Hs. injection Hs as -> ->. by rewrite app_nil_r.
    - injection Hs as -> ->.
      rewrite (IH Hf _ _ eq_refl Hon).
      pose proof (run_console item (store self) (inspected self item w)) as Hrc.
      rewrite Hrun in Hrc. cbn [snd] in Hrc. rewrite Hrc.
      unfold inspected. rewrite Hon. cbn [console_print __print_step modify snd console].
      rewrite fmap_app. cbn [fmap list_fmap fst]. by rewrite <- app_assoc. }
  split; [done|]. split.
  { by rewrite (_run_pipe_completes _ _ _ _ _ Hc). }
  intros item post Hstop.
  assert (console (_run_pipe (pre ++ item :: post) self w).2
          = console w1 ++ [(item, store self1)]) as Hlast.
  { rewrite (_run_pipe_commits _ _ _ _ _ _ Hc), _run_pipe_cons.
    pose proof (run_console item (store self1) (inspected self1 item w1)) as Hrc.
    assert (console (inspected self1 item w1) = console w1 ++ [(item, store self1)]) as Hi.
    { unfold inspected. by rewrite (commits_inspection _ _ _ _ _ Hc), Hon. }
    rewrite Hi in Hrc.
    destruct (run item (store self1) (inspected self1 item w1)) as [[result|e] w2];
      cbn [fst snd] in *; [|done].
    by rewrite (Hstop result eq_refl). }
  split; [done|].
  rewrite Hlast, fmap_app, Hpre. cbn [fmap list_fmap fst]. by rewrite <- app_assoc.
Qed.

(** Nothing a step does reads or writes the console. *)
Lemma ignores_ret {X} (a : X) : ignores_console (rule := rule) (ret a).
Proof. done. Qed.

Lemma ignores_raise {X} e : ignores_console (rule := rule) (raise (A := X) e).
Proof. done. Qed.

Lemma ignores_gets {X} (f : world rule → X) :
  (∀ c w, f (with_console c w) = f w) → ignores_console (gets f).
Proof. intros Hf c w. unfold gets. simpl. by rewrite Hf. Qed.

Lemma ignores_modify (g : world rule → world rule) :
  (∀ c w, g (with_console c w) = with_console c (g w)) → ignores_console (modify g).
Proof. intros Hg c w. unfold modify. simpl. by rewrite Hg. Qed.

Lemma ignores_bind {X Y} (m : M rule X) (k : X → M rule Y) :
  ignores_console m → (∀ a, ignores_console (k a)) → ignores_console (bind m k).
Proof.
  intros Hm Hk c w. unfold bind. rewrite Hm.
  destruct (m w) as [[a|e] w1]; simpl; [apply Hk|done].
Qed.

Lemma ignores_try_except {X} (m : M rule X) h :
  ignores_console m → (∀ e, ignores_console (h e)) → ignores_console (try_except m h).
Proof.
  intros Hm Hh c w. unfold try_except. rewrite Hm.
  destruct (m w) as [[a|e] w1]; simpl; [done|].
  destruct (is_Exception e); [apply Hh|done].
Qed.

Lemma ignores_of_result {X} (r : result X) : ignores_console (rule := rule) (of_result r).
Proof. by destruct r. Qed.

Create HintDb console discriminated.
Hint Resolve ignores_ret ignores_raise ignores_of_result : console.
Hint Extern 2 (ignores_console (bind _ _)) => apply ignores_bind; [|intros ?] : console.
Hint Extern 2 (ignores_console (try_except _ _)) =>
  apply ignores_try_except; [|intros ?] : console.
Hint Extern 1 (ignores_console (gets _)) => by apply ignores_gets : console.
Hint Extern 1 (ignores_console (modify _)) => by apply ignores_modify : console.
Hint Extern 1 (ignores_console dangling) => apply ignores_raise : console.

Lemma ignores_get_instance id : ignores_console (rule := rule) (get_instance id).
Proof. unfold get_instance. apply ignores_bind; [auto with console|]. intros []; auto with console. Qed.

Lemma ignores_get_dict l : ignores_console (rule := rule) (get_dict l).
Proof. unfold get_dict. apply ignores_bind; [auto with console|]. intros []; auto with console. Qed.

Lemma ignores_set_instance id inst : ignores_console (rule := rule) (set_instance id inst).
Proof. unfold set_instance. auto with console. Qed.

Lemma ignores_set_dict l d : ignores_console (set_dict l d).
Proof. unfold set_dict. auto with console. Qed.

Lemma ignores_log_call s C : ignores_console (rule := rule) (log_call s C).
Proof. unfold log_call. auto with console. Qed.

Hint Resolve ignores_get_instance ignores_get_dict ignores_set_instance
  ignores_set_dict ignores_log_call : console.

Lemma ignores_alloc_dict d : ignores_console (alloc_dict d).
Proof. unfold alloc_dict. auto with console. Qed.

Lemma ignores_getattr id name : ignores_console (rule := rule) (getattr id name).
Proof.
  unfold getattr. apply ignores_bind; [auto with console|]. intros inst.
  destruct (attrs inst !! name); [auto with console|].
  destruct (methods inst !! name); auto with console.
Qed.

Hint Resolve ignores_alloc_dict ignores_getattr : console.

Lemma ignores_parse_loop id l keys (dynamic_config : kwargs rule) :
  ignores_console (parse_loop id l keys dynamic_config).
Proof.
  revert dynamic_config.
  induction keys as [|key keys IH]; intros dynamic_config; simpl; [auto with console|].
  destruct (is_dynamic key); [|done].
  apply ignores_bind; [auto with console|]. intros v.
  apply ignores_bind; [auto with console|]. intros d.
  destruct (Dict.get key d); auto with console.
Qed.

Lemma ignores_dict_kwargs d (dynamic_config : kwargs rule) :
  ignores_console (dict_kwargs d dynamic_config).
Proof.
  unfold dict_kwargs. destruct (non_string_key _); [auto with console|].
  destruct (Dict.merge_kwargs _ _); auto with console.
Qed.

Hint Resolve ignores_parse_loop ignores_dict_kwargs : console.

Lemma ignores_parse_dynamic_fields id :
  ignores_console (rule := rule) (_parse_dynamic_fields id).
Proof.
  unfold _parse_dynamic_fields.
  apply ignores_bind; [auto with console|]. intros inst.
  destruct (required_fields inst); auto 10 with console.
Qed.

Hint Resolve ignores_parse_dynamic_fields : console.

Lemma ignores_validate id C : ignores_console (validate id C).
Proof.
  unfold validate.
  apply ignores_bind; [auto with console|]. intros _.
  apply ignores_bind; [auto with console|]. intros inst.
  apply ignores_bind; [auto with console|]. intros [schema|]; [|auto with console].
  destruct (V_validate schema C); auto with console.
Qed.

Lemma ignores_dispatch id names C : ignores_console (rule := rule) (dispatch id names C).
Proof.
  induction names as [|method names IH]; simpl; [auto with console|].
  apply ignores_bind; [auto with console|]. intros inst.
  destruct (attrs inst !! method); [auto with console|].
  destruct (methods inst !! method) as [f|]; [|done].
  destruct (f (attrs inst) C) as [[store'|e] attrs']; auto with console.
Qed.

Hint Resolve ignores_validate ignores_dispatch : console.

Lemma ignores_Step_run id C : ignores_console (Step_run id C).
Proof.
  unfold Step_run.
  apply ignores_bind; [auto with console|]. intros inst.
  apply ignores_bind; [destruct (required_fields inst); auto with console|].
  intros store. apply ignores_bind; [auto with console|].
  intros [store'|]; auto with console.
Qed.

Lemma ignores_run s C : ignores_console (run s C).
Proof.
  revert C. induction s as [id|A IHA B IHB|A IHA B IHB]; intros C; simpl.
  - apply ignores_bind; [auto with console|]. intros _. apply ignores_Step_run.
  - apply ignores_bind; [auto with console|]. intros _.
    apply ignores_try_except; [|auto with console].
    apply ignores_bind; [done|]. intros ra.
    apply ignores_bind; [done|]. auto with console.
  - apply ignores_bind; [auto with console|]. intros _.
    by apply ignores_try_except.
Qed.

Lemma _run_pipe_inspection items :
  ∀ st w c,
    let off := _run_pipe items (Pipe false st) w in
    ∃ c', _run_pipe items (Pipe true st) (with_console c w)
          = (off.1.1, Pipe true (store off.1.2), with_console c' off.2).
Proof.
  induction items as [|item items IH]; intros st w c off.
  - exists c. done.
  - unfold off. rewrite !_run_pipe_cons. unfold inspected. cbn [__inspection_mode store].
    change ((__print_step item st (with_console c w)).2)
      with (with_console (c ++ [(item, st)]) w).
    rewrite ignores_run.
    destruct (run item st w) as [[r|e] w']; cbn [fst snd]; [|by eexists].
    destruct (interrupt r); [by eexists|]. apply IH.
Qed.

(** Inspection is an observer only: with the flag on or off, a run returns
    or raises the same, leaves the same store in the pipe object, and the
    same instances, dictionaries and log of calls in the world. *)
Theorem inspection_does_not_change_the_run items st w :
  let on := _run_pipe items (Pipe true st) w in
  let off := _run_pipe items (Pipe false st) w in
  on.1.1 = off.1.1
  ∧ store on.1.2 = store off.1.2
  ∧ objs on.2 = objs off.2
  ∧ dicts on.2 = dicts off.2
  ∧ calls on.2 = calls off.2.
Proof.
  intros on off. unfold on.
  destruct (_run_pipe_inspection items st w (console w)) as [c' Heq].
  replace (with_console (console w) w) with w in Heq by by destruct w.
  rewrite Heq. done.
Qed.


(** ** The keys [_parse_dynamic_fields] treats as dynamic *)

Lemma remove_chars_app drop (s1 s2 : string) :
  remove_chars drop (s1 ++ s2) = (remove_chars drop s1 ++ remove_chars drop s2)%string.
Proof.
  induction s1 as [|a s1 IH]; [done|]. simpl. rewrite IH. by destruct (drop a).
Qed.

Lemma remove_chars_plain drop (name : string) :
  (∀ a, drop a = true → is_brace a || is_plus a = true) →
  plain_name name = true → remove_chars drop name = name.
Proof.
  intros Hdrop. induction name as [|a name IH]; [done|]. simpl.
  intros [[Hb Hp]%andb_prop Hname]%andb_prop.
  destruct (drop a) eqn:Ha.
  - apply Hdrop in Ha. destruct (is_brace a), (is_plus a); done.
  - by rewrite IH.
Qed.

Lemma string_app_nil_r (s : string) : (s ++ "")%string = s.
Proof.
  induction s as [|a s IH]; [done|].
  change (String a (s ++ "") = String a s). by rewrite IH.
Qed.

Lemma endswith_brace_app (s : string) : endswith (s ++ "}") "}" = true.
Proof.
  unfold endswith.
  assert (String.length (s ++ "}") = S (String.length s)) as ->.
  { induction s as [|a s IH]; [done|]. simpl. by rewrite IH. }
  simpl. replace (String.length s - 0) with (String.length s) by lia.
  assert (substring (String.length s) 1 (s ++ "}") = "}") as ->; [|done].
  induction s as [|a s IH]; [done|]. exact IH.
Qed.

(** Whatever [name] is, the keys [{name}] and [+{name}] are dynamic, and
    both name the attribute [name] with its braces and plus signs taken
    out: [name] itself when it has none. *)
Theorem braced_keys_are_dynamic (name : string) :
  is_dynamic ("{" ++ name ++ "}") = true
  ∧ is_dynamic ("+{" ++ name ++ "}") = true
  ∧ variable_of ("{" ++ name ++ "}") = variable_of name
  ∧ variable_of ("+{" ++ name ++ "}") = variable_of name
  ∧ (plain_name name = true → variable_of name = name).
Proof.
  split; [|split; [|split; [|split]]].
  - unfold is_dynamic.
    change ("{" ++ name ++ "}")%string with (String "{" (name ++ "}")).
    rewrite (endswith_brace_app (String "{" name)
             : endswith (String "{" (name ++ "}")) "}" = true).
    unfold startswith. cbn. by destruct name.
  - unfold is_dynamic.
    change ("+{" ++ name ++ "}")%string with (String "+" (String "{" (name ++ "}"))).
    rewrite (endswith_brace_app (String "+" (String "{" name))
             : endswith (String "+" (String "{" (name ++ "}"))) "}" = true).
    unfold startswith. cbn. by destruct name.
  - unfold variable_of, re_sub_braces, replace_plus.
    change ("{" ++ name ++ "}")%string with (String "{" (name ++ "}")).
    cbn [remove_chars]. change (is_brace "{") with true. cbv iota.
    rewrite remove_chars_app. cbn. by rewrite remove_chars_app, string_app_nil_r.
  - unfold variable_of, re_sub_braces, replace_plus.
    change ("+{" ++ name ++ "}")%string with (String "+" (String "{" (name ++ "}"))).
    cbn [remove_chars]. change (is_brace "+") with false. change (is_brace "{") with true.
    cbv iota. cbn [remove_chars]. change (is_plus "+") with true. cbv iota.
    rewrite remove_chars_app. cbn. by rewrite remove_chars_app, string_app_nil_r.
  - intros Hplain. unfold variable_of, re_sub_braces, replace_plus.
    rewrite (remove_chars_plain is_brace name), (remove_chars_plain is_plus name);
      try done; intros a ->; [apply orb_true_r|done].
Qed.


(** ** Validation and the schema it leaves *)

Lemma NoDup_dict_keys_filter (P : string * rule → Prop) `{!∀ x, Decision (P x)} d :
  NoDup (Dict.keys d) → NoDup (Dict.keys (filter P d)).
Proof.
  unfold Dict.keys. induction d as [|[k r] d IH]; [done|].
  rewrite fmap_cons, NoDup_cons. intros [Hk Hnd]. rewrite filter_cons.
  case_decide; [|by apply IH].
  rewrite fmap_cons, NoDup_cons. split; [|by apply IH].
  intros Hin. apply Hk. apply list_elem_of_fmap in Hin as (entry & -> & Hin).
  apply list_elem_of_filter in Hin as [_ Hin]. by apply list_elem_of_fmap_2.
Qed.

Lemma dict_keys_static_part k d : k ∈ Dict.keys (static_part d) → k ∈ Dict.keys d.
Proof.
  unfold Dict.keys, static_part. intros Hin.
  apply list_elem_of_fmap in Hin as (entry & -> & Hin).
  apply list_elem_of_filter in Hin as [_ Hin]. by apply list_elem_of_fmap_2.
Qed.

(** The state [validate] is in once the loop of [_parse_dynamic_fields] is
    through, when every dynamic key resolves to a string, different keys to
    different strings: the dictionary at [l] holds the literal entries. *)
Lemma parse_loop_resolved id inst l d w :
  objs w !! id = Some inst →
  dicts w !! l = Some d →
  NoDup (Dict.keys d) →
  (∀ k, k ∈ Dict.keys d → is_dynamic k → is_Some (resolved inst k)) →
  NoDup (Dict.keys (dynamic_rekeyed inst d)) →
  parse_loop id l (Dict.keys d) (Kwargs [] false) w =
    (Ok (Kwargs (dynamic_rekeyed inst d) false),
     World (objs w) (<[l := static_part d]> (dicts w)) (console w) (calls w)).
Proof.
  intros Hid Hd Hnd Hres Hnd'.
  rewrite (parse_loop_rekeys id inst l d d (Kwargs [] false) w); try done; cycle 1.
  { intros k r Hin. by apply dict_get_Some. }
  simpl app.
  rewrite (filter_ext_elem_of _ (λ entry, ¬ is_dynamic entry.1)); [done|].
  intros [k r] Hin%elem_of_dict_keys. simpl. tauto.
Qed.

(** [validate] on such a schema whose resolved strings are no keys of it:
    the outcome, and the world it leaves, with the new dictionary at a
    fresh place. *)
Lemma validate_rekeys id inst l d C w :
  objs w !! id = Some inst →
  required_fields inst = Some l →
  dicts w !! l = Some d →
  (∀ k, k ∈ Dict.keys d → is_dynamic k → is_Some (resolved inst k)) →
  NoDup (Dict.keys (dynamic_rekeyed inst d) ++ Dict.keys d) →
  let l' := fresh (dom (<[l := static_part d]> (dicts w))) in
  validate id C w =
    (validated inst (rekeyed inst d) C,
     World (<[id := Instance (cls_name inst) (_available_methods inst) (methods inst)
                             (attrs inst) (Some l')]> (objs w))
           (<[l' := rekeyed inst d]> (<[l := static_part d]> (dicts w)))
           (console w) (calls w)).
Proof.
  intros Hid Hl Hd Hres Hfresh l'.
  apply NoDup_app in Hfresh as (Hnd' & Hdisj & Hnd).
  unfold validate, _parse_dynamic_fields.
  unfold bind at 1. unfold bind at 1, get_instance, bind at 1, gets. simpl.
  rewrite Hid. simpl. rewrite Hl.
  unfold bind at 1, get_dict, bind at 1, gets. simpl. rewrite Hd. simpl.
  unfold bind at 1. rewrite (parse_loop_resolved id inst l d w) by done.
  unfold bind at 1, bind at 1, gets. simpl. rewrite lookup_insert_eq. simpl.
  unfold bind at 1, dict_kwargs. simpl.
  rewrite dict_merge_kwargs_disjoint; cycle 1.
  { intros k Hk Hin%dict_keys_static_part. by apply (Hdisj k Hk). }
  fold (rekeyed inst d). simpl.
  unfold bind at 1, alloc_dict, bind at 1, gets. simpl. fold l'.
  unfold bind at 1, set_dict, modify. simpl.
  unfold bind at 1, get_instance, bind at 1, gets. simpl. rewrite Hid. simpl.
  unfold set_instance, modify. simpl.
  unfold bind at 1, bind at 1, gets. simpl. rewrite lookup_insert_eq. simpl.
  unfold bind, gets, self_required_fields. simpl.
  rewrite lookup_insert_eq. simpl. rewrite lookup_insert_eq. simpl.
  unfold validated. destruct (V_validate _ C); [apply of_result_eq|done|done].
Qed.

Lemma self_required_fields_Some id inst d w :
  objs w !! id = Some inst → self_required_fields id w = Some d →
  ∃ l, required_fields inst = Some l ∧ dicts w !! l = Some d.
Proof.
  intros Hid Hrf. unfold self_required_fields in Hrf. rewrite Hid in Hrf. simpl in Hrf.
  destruct (required_fields inst) as [l|]; [eauto|done].
Qed.

(** A validation error stops the step: [run] raises
    [StepValidationException] with the class name and the validator's
    message, and ends where [validate] ended, no capability method
    called. *)
Theorem validation_error_stops_the_step id inst d C w message :
  objs w !! id = Some inst →
  self_required_fields id w = Some d →
  (∀ k, k ∈ Dict.keys d → is_dynamic k → is_Some (resolved inst k)) →
  NoDup (Dict.keys (dynamic_rekeyed inst d) ++ Dict.keys d) →
  V_validate (rekeyed inst d) C = ValidationError message →
  run (Atom id) C w =
    (Raise (StepValidationException
              ("Validation for step " ++ cls_name inst ++
               " failed with error " ++ newline ++ message)),
     (validate id C (entered (Atom id) C w)).2)
  ∧ ∃ inst', objs (run (Atom id) C w).2 !! id = Some inst' ∧ attrs inst' = attrs inst.
Proof.
  intros Hid Hrf Hres Hfresh Hval.
  destruct (self_required_fields_Some _ _ _ _ Hid Hrf) as (l & Hl & Hd).
  assert (run (Atom id) C w =
          (Raise (StepValidationException
                    ("Validation for step " ++ cls_name inst ++
                     " failed with error " ++ newline ++ message)),
           (validate id C (entered (Atom id) C w)).2)) as Hrun.
  { rewrite run_Atom. unfold Step_run.
    unfold bind at 1, get_instance, bind at 1, gets. simpl. rewrite Hid. simpl.
    rewrite Hl. unfold bind at 1.
    rewrite (validate_rekeys id inst l d C (entered (Atom id) C w)) by done.
    unfold validated. by rewrite Hval. }
  split; [exact Hrun|]. rewrite Hrun. cbn [snd].
  rewrite (validate_rekeys id inst l d C (entered (Atom id) C w)) by done.
  eexists. split; [apply lookup_insert_eq|done].
Qed.

(** Resolution happens once: when no key of the re-keyed schema is dynamic
    itself, a second call of [validate] finds nothing to resolve, validates
    against the same schema and leaves it in place. *)
Theorem dynamic_fields_resolved_once id inst d C C2 w :
  objs w !! id = Some inst →
  self_required_fields id w = Some d →
  (∀ k, k ∈ Dict.keys d → is_dynamic k → is_Some (resolved inst k)) →
  NoDup (Dict.keys (dynamic_rekeyed inst d) ++ Dict.keys d) →
  (∀ k, k ∈ Dict.keys (rekeyed inst d) → ¬ is_dynamic k) →
  let first := validate id C w in
  let second := validate id C2 first.2 in
  second.1 = validated inst (rekeyed inst d) C2
  ∧ self_required_fields id second.2 = Some (rekeyed inst d).
Proof.
  intros Hid Hrf Hres Hfresh Hstatic first second.
  destruct (self_required_fields_Some _ _ _ _ Hid Hrf) as (l & Hl & Hd).
  unfold second, first. rewrite (validate_rekeys id inst l d C w) by done. cbn [snd].
  set (l' := fresh _). set (inst' := Instance _ _ _ _ _).
  set (w' := World _ _ _ _). set (d' := rekeyed inst d) in *.
  assert (dynamic_rekeyed inst' d' = []) as Hnil.
  { unfold dynamic_rekeyed. clear -Hstatic. revert Hstatic. generalize d'. intros es Hstatic.
    induction es as [|[k r] es IH]; [done|]. simpl.
    destruct (is_dynamic k) eqn:Hk.
    - exfalso. apply (Hstatic k); [by left|by rewrite Hk].
    - apply IH. intros k' Hin. apply Hstatic. by right. }
  assert (static_part d' = d') as Hsame.
  { apply filter_all. intros [k r] Hin%elem_of_dict_keys. by apply Hstatic. }
  assert (rekeyed inst' d' = d') as Hre.
  { unfold rekeyed. by rewrite Hnil, Hsame, app_nil_r. }
  assert (NoDup (Dict.keys d')) as Hnd'.
  { apply NoDup_app in Hfresh as (Hnd1 & Hdisj & Hnd2).
    unfold d', rekeyed, Dict.keys. rewrite fmap_app. apply NoDup_app.
    split; [by apply NoDup_dict_keys_filter|]. split; [|done].
    intros k Hk%dict_keys_static_part Hk'. by apply (Hdisj k). }
  rewrite (validate_rekeys id inst' l' d' C2 w'); cycle 1.
  - apply lookup_insert_eq.
  - done.
  - apply lookup_insert_eq.
  - intros k Hk Hdyn. by destruct (Hstatic k).
  - by rewrite Hnil.
  - rewrite Hre. cbn [fst snd]. split; [done|].
    unfold self_required_fields. simpl. rewrite lookup_insert_eq. simpl.
    by rewrite lookup_insert_eq.
Qed.

(** The dictionary a class declares is shared by its instances, and the
    loop deletes from it in place: once one instance has validated, another
    instance whose [required_fields] is still that dictionary finds the
    literal entries only -- the dynamic fields are not checked for it. *)
Theorem shared_schema_loses_dynamic_entries id inst other inst2 l d C w :
  objs w !! id = Some inst →
  objs w !! other = Some inst2 →
  other ≠ id →
  required_fields inst = Some l →
  required_fields inst2 = Some l →
  dicts w !! l = Some d →
  (∀ k, k ∈ Dict.keys d → is_dynamic k → is_Some (resolved inst k)) →
  NoDup (Dict.keys (dynamic_rekeyed inst d) ++ Dict.keys d) →
  self_required_fields other (validate id C w).2 = Some (static_part d).
Proof.
  intros Hid Hother Hne Hl Hl2 Hd Hres Hfresh.
  rewrite (validate_rekeys id inst l d C w) by done. cbn [snd].
  unfold self_required_fields. simpl.
  rewrite lookup_insert_ne by done. rewrite Hother. simpl. rewrite Hl2. simpl.
  rewrite lookup_insert_ne; [apply lookup_insert_eq|].
  intros Heq. apply (is_fresh (dom (<[l := static_part d]> (dicts w)))).
  rewrite Heq. apply elem_of_dom. rewrite lookup_insert_eq. by eexists.
Qed.

(** A dynamic key that resolves to a string the schema has as a literal
    key makes [validate] raise [TypeError]: the [dict] call is given that
    keyword twice.  [required_fields] stays bound to the same dictionary,
    which has lost its dynamic entries. *)
Theorem dynamic_key_clash_raises_TypeError id inst d C w v :
  objs w !! id = Some inst →
  self_required_fields id w = Some d →
  NoDup (Dict.keys d) →
  (∀ k, k ∈ Dict.keys d → is_dynamic k → is_Some (resolved inst k)) →
  NoDup (Dict.keys (dynamic_rekeyed inst d)) →
  v ∈ Dict.keys (dynamic_rekeyed inst d) →
  v ∈ Dict.keys (static_part d) →
  (validate id C w).1 = Raise TypeError
  ∧ self_required_fields id (validate id C w).2 = Some (static_part d).
Proof.
  intros Hid Hrf Hnd Hres Hnd' Hv Hv'.
  destruct (self_required_fields_Some _ _ _ _ Hid Hrf) as (l & Hl & Hd).
  assert (validate id C w =
          (Raise TypeError,
           World (objs w) (<[l := static_part d]> (dicts w)) (console w) (calls w))) as ->.
  { unfold validate, _parse_dynamic_fields.
    unfold bind at 1. unfold bind at 1, get_instance, bind at 1, gets. simpl.
    rewrite Hid. simpl. rewrite Hl.
    unfold bind at 1, get_dict, bind at 1, gets. simpl. rewrite Hd. simpl.
    unfold bind at 1. rewrite (parse_loop_resolved id inst l d w) by done.
    unfold bind at 1, bind at 1, gets. simpl. rewrite lookup_insert_eq. simpl.
    unfold bind at 1, dict_kwargs. simpl.
    unfold Dict.merge_kwargs. rewrite decide_True; [done|].
    apply Exists_exists. eauto. }
  split; [done|].
  unfold self_required_fields. simpl. rewrite Hid. simpl. rewrite Hl. simpl.
  apply lookup_insert_eq.
Qed.


(** [validate] returns only if every dynamic key of the schema names an
    attribute that holds a string: a missing attribute raises
    [AttributeError], any other value [TypeError]. *)
Lemma getattr_cases id inst name w :
  objs w !! id = Some inst →
  getattr id name w =
    (match attrs inst !! name with
     | Some v => Ok v
     | None =>
         match methods inst !! name with
         | Some _ => Ok (VObj ("<bound method " ++ name ++ ">"))
         | None => Raise (AttributeError name)
         end
     end, w).
Proof.
  intros Hid. unfold getattr, bind, get_instance, bind, gets. simpl. rewrite Hid. simpl.
  destruct (attrs inst !! name); [done|]. by destruct (methods inst !! name).
Qed.

Lemma parse_loop_returns id inst l keys :
  ∀ (dc dc' : kwargs rule) w w',
    objs w !! id = Some inst →
    parse_loop id l keys dc w = (Ok dc', w') →
    non_string_key dc' = false →
    non_string_key dc = false
    ∧ ∀ k, k ∈ keys → is_dynamic k → is_Some (resolved inst k).
Proof.
  induction keys as [|key keys IH]; intros dc dc' w w' Hid Hloop Hstr.
  - injection Hloop as -> ->. split; [done|]. by intros k ?%elem_of_nil.
  - cbn [parse_loop] in Hloop. destruct (is_dynamic key) eqn:Hdyn.
    + change (replace_plus (re_sub_braces key)) with (variable_of key) in Hloop.
      unfold bind at 1 in Hloop. rewrite (getattr_cases id inst) in Hloop by done.
      assert (∀ v, (∀ str : string, v ≠ VStr str) →
                ∀ r, non_string_key (kwargs_update v r dc) = true) as Hflag.
      { intros v Hv r. destruct v as [| |str| | |]; try done. by destruct (Hv str). }
      assert (∀ v r w1,
                parse_loop id l keys (kwargs_update v r dc) w1 = (Ok dc', w') →
                objs w1 !! id = Some inst →
                attrs inst !! variable_of key = Some v ∨
                (attrs inst !! variable_of key = None ∧ ∀ str : string, v ≠ VStr str) →
                non_string_key dc = false
                ∧ ∀ k, k ∈ key :: keys → is_dynamic k → is_Some (resolved inst k)) as Hstep.
      { intros v r w1 Hrest Hid1 Hv.
        destruct (IH _ _ _ _ Hid1 Hrest Hstr) as [Hdc Hkeys].
        assert (∃ str : string, v = VStr str) as [str ->].
        { destruct v; try (by rewrite Hflag in Hdc). by eexists. }
        destruct Hv as [Hv|[_ Hv]]; [|by destruct (Hv str)].
        split; [done|]. intros k [->|Hin]%elem_of_cons Hk; [|by apply Hkeys].
        unfold resolved. rewrite Hv. by eexists. }
      unfold bind at 1, get_dict, bind at 1, gets in Hloop.
      destruct (attrs inst !! variable_of key) as [v|] eqn:Hattr.
      * simpl in Hloop. destruct (dicts w !! l) as [d|]; [|done]. simpl in Hloop.
        destruct (Dict.get key d) as [r|]; [|done].
        unfold bind, set_dict, modify in Hloop. simpl in Hloop.
        eapply Hstep; [exact Hloop|done|by left].
      * destruct (methods inst !! variable_of key) as [f|]; [|done].
        simpl in Hloop. destruct (dicts w !! l) as [d|]; [|done]. simpl in Hloop.
        destruct (Dict.get key d) as [r|]; [|done].
        unfold bind, set_dict, modify in Hloop. simpl in Hloop.
        eapply IH in Hloop as [Hdc _]; done.
    + destruct (IH _ _ _ _ Hid Hloop Hstr) as [Hdc Hkeys]. split; [done|].
      intros k [->|Hin]%elem_of_cons Hk; [by rewrite Hdyn in Hk|by apply Hkeys].
Qed.

Theorem validate_returns_only_if_keys_resolve id inst d C w R :
  objs w !! id = Some inst →
  self_required_fields id w = Some d →
  (validate id C w).1 = Ok R →
  ∀ k, k ∈ Dict.keys d → is_dynamic k → is_Some (resolved inst k).
Proof.
  intros Hid Hrf Hok.
  destruct (self_required_fields_Some _ _ _ _ Hid Hrf) as (l & Hl & Hd).
  unfold validate, _parse_dynamic_fields in Hok.
  unfold bind at 1 in Hok. unfold bind at 1, get_instance, bind at 1, gets in Hok.
  simpl in Hok. rewrite Hid in Hok. simpl in Hok. rewrite Hl in Hok.
  unfold bind at 1, get_dict, bind at 1, gets in Hok. simpl in Hok.
  rewrite Hd in Hok. simpl in Hok. unfold bind at 1 in Hok.
  destruct (parse_loop id l (Dict.keys d) _ w) as [[dc'|e] w1] eqn:Hloop; [|done].
  destruct (non_string_key dc') eqn:Hstr.
  - exfalso. unfold bind at 1, bind at 1, gets in Hok. simpl in Hok.
    destruct (dicts w1 !! l); simpl in Hok; [|done].
    unfold bind at 1, dict_kwargs in Hok. by rewrite Hstr in Hok.
  - by destruct (parse_loop_returns _ _ _ _ _ _ _ _ Hid Hloop Hstr).
Qed.

(** ** What running a step leaves alone *)

(** A step writes to the records of the instances it is built from and of
    no other. *)
Lemma run_objs_frame s C w id :
  id ∉ atoms s → objs (run s C w).2 !! id = objs w !! id.
Proof.
  revert C w. induction s as [id'|A IHA B IHB|A IHA B IHB]; intros C w Hid.
  - rewrite run_Atom.
    rewrite (preserves_Step_run (λ w, objs w !! id) id'); [done| |done].
    intros inst' w'. simpl. apply lookup_insert_ne. intros ->. apply Hid. by left.
  - simpl in Hid. apply not_elem_of_app in Hid as [HA HB]. rewrite run_AndStep.
    pose proof (IHA C (entered (AndStep A B) C w) HA) as HA'.
    destruct (run A C _) as [[ra|e] w1]; cbn [snd] in *; [|done].
    pose proof (IHB C w1 HB) as HB'.
    destruct (run B C w1) as [[rb|e] w2]; cbn [snd] in *; by rewrite HB', HA'.
  - simpl in Hid. apply not_elem_of_app in Hid as [HA HB]. rewrite run_OrStep.
    pose proof (IHA C (entered (OrStep A B) C w) HA) as HA'.
    destruct (run A C _) as [[ra|e] w1]; cbn [snd] in *; [done|].
    destruct (is_Exception e); [|done]. by rewrite IHB, HA'.
Qed.

(** *** A dictionary that is the schema of no instance of a step *)

Lemma hoare_ret {X} (P E : world rule → Prop) (Q : X → world rule → Prop) a :
  (∀ w, P w → Q a w) → hoare P (ret a) Q E.
Proof. intros HQ w HP. by apply HQ. Qed.

Lemma hoare_raise {X} (P E : world rule → Prop) (Q : X → world rule → Prop) e :
  (∀ w, P w → E w) → hoare P (raise e) Q E.
Proof. intros HE w HP. by apply HE. Qed.

Lemma hoare_bind {X Y} (P E : world rule → Prop) (Q : X → world rule → Prop)
    (R : Y → world rule → Prop) (m : M rule X) (k : X → M rule Y) :
  hoare P m Q E → (∀ a, hoare (Q a) (k a) R E) → hoare P (bind m k) R E.
Proof.
  intros Hm Hk w HP. unfold bind. specialize (Hm w HP).
  destruct (m w) as [[a|e] w1]; [by apply Hk|done].
Qed.

Lemma hoare_try_except {X} (P E : world rule → Prop) (Q : X → world rule → Prop)
    (m : M rule X) h :
  hoare P m Q E → (∀ e, hoare E (h e) Q E) → hoare P (try_except m h) Q E.
Proof.
  intros Hm Hh w HP. unfold try_except. specialize (Hm w HP).
  destruct (m w) as [[a|e] w1]; [done|].
  destruct (is_Exception e); [by apply Hh|done].
Qed.

(** A computation that leaves the world as it is keeps whatever holds. *)
Lemma hoare_reader {X} (P : world rule → Prop) (m : M rule X) :
  preserves (λ w, w) m → hoare P m (λ _, P) P.
Proof.
  intros Hm w HP. specialize (Hm w).
  destruct (m w) as [[a|e] w1]; simpl in *; by subst.
Qed.

(** A fact that follows from the precondition may be used. *)
Lemma hoare_pre {X} (fact : Prop) (P P' E : world rule → Prop)
    (Q : X → world rule → Prop) (m : M rule X) :
  (∀ w, P w → fact ∧ P' w) → (fact → hoare P' m Q E) → hoare P m Q E.
Proof. intros HP Hm w Hw. destruct (HP w Hw) as [Hfact Hw']. by apply Hm. Qed.

Section Unshared.
Context (l : nat) (d : Dict.t rule) (ids : list nat).

Local Abbreviation J := (unshared l d ids).

Lemma unshared_get_instance id :
  hoare J (get_instance id) (λ inst w, J w ∧ objs w !! id = Some inst) J.
Proof.
  intros w HJ. unfold get_instance, bind, gets. simpl.
  by destruct (objs w !! id) as [inst|] eqn:Hid.
Qed.

Lemma unshared_set_dict l0 d0 : l0 ≠ l → hoare J (set_dict l0 d0) (λ _, J) J.
Proof.
  intros Hne w [Hd Hids]. unfold set_dict, modify.
  split; simpl; [by rewrite lookup_insert_ne|done].
Qed.

Lemma unshared_alloc_dict d0 : hoare J (alloc_dict d0) (λ l' w, J w ∧ l' ≠ l) J.
Proof.
  intros w [Hd Hids]. unfold alloc_dict, bind, gets, set_dict, modify. simpl.
  assert (fresh (dom (dicts w)) ≠ l) as Hne.
  { intros Heq. apply (is_fresh (dom (dicts w))). rewrite Heq.
    apply elem_of_dom. by eexists. }
  split; [|done]. split; simpl; [by rewrite lookup_insert_ne|done].
Qed.

Lemma unshared_set_instance id inst :
  required_fields inst ≠ Some l → hoare J (set_instance id inst) (λ _, J) J.
Proof.
  intros Hne w [Hd Hids]. unfold set_instance, modify. split; [done|]. simpl.
  intros id' inst' Hin. destruct (decide (id' = id)) as [->|Hneq].
  - rewrite lookup_insert_eq. by intros [= <-].
  - rewrite lookup_insert_ne by done. by apply Hids.
Qed.

Lemma unshared_log_call s C : hoare J (log_call s C) (λ _, J) J.
Proof. by intros w HJ. Qed.

Lemma unshared_parse_loop id l0 keys (dynamic_config : kwargs rule) :
  l0 ≠ l → hoare J (parse_loop id l0 keys dynamic_config) (λ _, J) J.
Proof.
  intros Hne. revert dynamic_config.
  induction keys as [|key keys IH]; intros dynamic_config; simpl.
  - by apply hoare_ret.
  - destruct (is_dynamic key); [|done].
    eapply hoare_bind; [apply hoare_reader, preserves_getattr|]. intros v.
    eapply hoare_bind; [apply hoare_reader, preserves_get_dict|]. intros d1.
    destruct (Dict.get key d1); [|by apply hoare_raise].
    eapply hoare_bind; [by apply unshared_set_dict|]. intros ?. apply IH.
Qed.

Lemma dict_kwargs_reader d0 (dynamic_config : kwargs rule) :
  preserves (λ w, w) (dict_kwargs d0 dynamic_config).
Proof.
  unfold dict_kwargs. destruct (non_string_key _); [done|].
  by destruct (Dict.merge_kwargs _ _).
Qed.

Lemma unshared_parse_dynamic_fields id :
  id ∈ ids → hoare J (_parse_dynamic_fields id) (λ _, J) J.
Proof.
  intros Hin. unfold _parse_dynamic_fields.
  eapply hoare_bind; [apply unshared_get_instance|]. intros inst.
  destruct (required_fields inst) as [l0|] eqn:Hl0;
    [|apply hoare_raise; by intros w [HJ _]].
  apply (hoare_pre (l0 ≠ l) _ J).
  { intros w [HJ Hid]. split; [|done]. intros ->.
    destruct HJ as [_ Hids]. by apply (Hids id inst). }
  intros Hne.
  eapply hoare_bind; [apply hoare_reader, preserves_get_dict|]. intros d0.
  eapply hoare_bind; [by apply unshared_parse_loop|]. intros dynamic_config.
  eapply hoare_bind; [apply hoare_reader, preserves_get_dict|]. intros d1.
  eapply hoare_bind; [apply hoare_reader, dict_kwargs_reader|]. intros d'.
  eapply hoare_bind; [apply unshared_alloc_dict|]. intros l'.
  apply (hoare_pre (l' ≠ l) _ J); [by intros w [? ?]|]. intros Hl'.
  eapply hoare_bind; [apply hoare_reader, preserves_get_instance|]. intros inst2.
  apply unshared_set_instance. simpl. congruence.
Qed.

Lemma unshared_validate id C : id ∈ ids → hoare J (validate id C) (λ _, J) J.
Proof.
  intros Hin. unfold validate.
  eapply hoare_bind; [by apply unshared_parse_dynamic_fields|]. intros ?.
  eapply hoare_bind; [apply hoare_reader, preserves_get_instance|]. intros inst.
  eapply hoare_bind; [by apply hoare_reader|].
  intros [schema|]; [|by apply hoare_raise].
  destruct (V_validate schema C);
    [apply hoare_reader, preserves_of_result|by apply hoare_raise..].
Qed.

Lemma unshared_dispatch id names C :
  id ∈ ids → hoare J (dispatch id names C) (λ _, J) J.
Proof.
  intros Hin. induction names as [|method names IH]; simpl; [by apply hoare_ret|].
  eapply hoare_bind; [apply unshared_get_instance|]. intros inst.
  apply (hoare_pre (required_fields inst ≠ Some l) _ J).
  { intros w [HJ Hid]. split; [|done]. destruct HJ as [_ Hids]. by apply (Hids id inst). }
  intros Hrf.
  destruct (attrs inst !! method); [by apply hoare_raise|].
  destruct (methods inst !! method) as [f|]; [|apply IH].
  destruct (f (attrs inst) C) as [r attrs'].
  eapply hoare_bind; [by apply unshared_set_instance|]. intros ?.
  destruct r; [by apply hoare_ret|by apply hoare_raise].
Qed.

Lemma unshared_Step_run id C : id ∈ ids → hoare J (Step_run id C) (λ _, J) J.
Proof.
  intros Hin. unfold Step_run.
  eapply hoare_bind; [apply hoare_reader, preserves_get_instance|]. intros inst.
  apply (hoare_bind J J (λ _, J)).
  { destruct (required_fields inst); [by apply unshared_validate|by apply hoare_ret]. }
  intros store'.
  eapply hoare_bind; [by apply unshared_dispatch|].
  intros [store''|]; [by apply hoare_ret|by apply hoare_raise].
Qed.

Lemma unshared_run s C :
  (∀ id, id ∈ atoms s → id ∈ ids) → hoare J (run s C) (λ _, J) J.
Proof.
  revert C. induction s as [id|A IHA B IHB|A IHA B IHB]; intros C Hsub; simpl.
  - eapply hoare_bind; [apply unshared_log_call|]. intros ?.
    apply unshared_Step_run, Hsub. by left.
  - simpl in Hsub.
    eapply hoare_bind; [apply unshared_log_call|]. intros ?.
    apply hoare_try_except; [|intros ?; by apply hoare_ret].
    eapply hoare_bind; [apply IHA; intros id Hid; apply Hsub, elem_of_app; by left|].
    intros result_a.
    eapply hoare_bind; [apply IHB; intros id Hid; apply Hsub, elem_of_app; by right|].
    intros result_b. by apply hoare_ret.
  - simpl in Hsub.
    eapply hoare_bind; [apply unshared_log_call|]. intros ?.
    apply hoare_try_except.
    + apply IHA. intros id Hid. apply Hsub, elem_of_app. by left.
    + intros e. apply IHB. intros id Hid. apply Hsub, elem_of_app. by right.
Qed.
End Unshared.

(** A step leaves every other instance as it was: the record of an instance
    it is not built from is unchanged, and so is the schema that instance
    finds in [required_fields], provided the dictionary is not also the
    schema of an instance of the step. *)
Theorem run_leaves_other_instances s C w id inst :
  id ∉ atoms s →
  objs w !! id = Some inst →
  (∀ l, required_fields inst = Some l →
     is_Some (dicts w !! l)
     ∧ ∀ id' inst', id' ∈ atoms s → objs w !! id' = Some inst' →
                    required_fields inst' ≠ Some l) →
  objs (run s C w).2 !! id = Some inst
  ∧ self_required_fields id (run s C w).2 = self_required_fields id w.
Proof.
  intros Hnot Hid Hown.
  pose proof (run_objs_frame s C w id Hnot) as Hobjs. rewrite Hid in Hobjs.
  split; [done|].
  unfold self_required_fields. rewrite Hobjs, Hid. simpl.
  destruct (required_fields inst) as [l|]; [|done]. simpl.
  destruct (Hown l eq_refl) as [[d Hd] Hids].
  pose proof (unshared_run l d (atoms s) s C (λ _ Hin, Hin) w (conj Hd Hids)) as Hrun.
  rewrite Hd.
  destruct (run s C w) as [[r|e] w']; by destruct Hrun.
Qed.


Lemma same_instances_refl w : same_instances w w.
Proof. intros id. by destruct (objs w !! id). Qed.

Lemma same_instances_trans w1 w2 w3 :
  same_instances w1 w2 → same_instances w2 w3 → same_instances w1 w3.
Proof.
  intros H12 H23 id. specialize (H12 id). specialize (H23 id).
  destruct (objs w1 !! id), (objs w2 !! id), (objs w3 !! id); try done.
  destruct H12 as (? & ? & ?), H23 as (? & ? & ?). repeat split; congruence.
Qed.

Lemma same_instances_objs w w' : objs w' = objs w → same_instances w w'.
Proof. intros Heq id. rewrite Heq. by destruct (objs w !! id). Qed.

Lemma same_instances_insert w id inst inst' ds c tr :
  objs w !! id = Some inst → same_class inst inst' →
  same_instances w (World (<[id := inst']> (objs w)) ds c tr).
Proof.
  intros Hid Hclass id'. simpl. destruct (decide (id' = id)) as [->|Hne].
  - by rewrite lookup_insert_eq, Hid.
  - rewrite lookup_insert_ne by done. by destruct (objs w !! id').
Qed.

Lemma keeps_ret {X} (a : X) : keeps_instances (rule := rule) (ret a).
Proof. intros w. apply same_instances_refl. Qed.

Lemma keeps_raise {X} e : keeps_instances (rule := rule) (raise (A := X) e).
Proof. intros w. apply same_instances_refl. Qed.

Lemma keeps_gets {X} (f : world rule → X) : keeps_instances (gets f).
Proof. intros w. apply same_instances_refl. Qed.

Lemma keeps_modify (g : world rule → world rule) :
  (∀ w, objs (g w) = objs w) → keeps_instances (modify g).
Proof. intros Hg w. apply same_instances_objs. simpl. apply Hg. Qed.

Lemma keeps_bind {X Y} (m : M rule X) (k : X → M rule Y) :
  keeps_instances m → (∀ a, keeps_instances (k a)) → keeps_instances (bind m k).
Proof.
  intros Hm Hk w. unfold bind. specialize (Hm w).
  destruct (m w) as [[a|e] w1]; [|done].
  eapply same_instances_trans; [exact Hm|apply Hk].
Qed.

Lemma keeps_try_except {X} (m : M rule X) h :
  keeps_instances m → (∀ e, keeps_instances (h e)) → keeps_instances (try_except m h).
Proof.
  intros Hm Hh w. unfold try_except. specialize (Hm w).
  destruct (m w) as [[a|e] w1]; [done|].
  destruct (is_Exception e); [|done].
  eapply same_instances_trans; [exact Hm|apply Hh].
Qed.

Lemma keeps_of_result {X} (r : result X) : keeps_instances (rule := rule) (of_result r).
Proof. destruct r; intros w; apply same_instances_refl. Qed.

(** What is done with an instance just read, when it is put back with its
    class and methods. *)
Lemma keeps_with_instance {X} id (k : instance → M rule X) :
  (∀ inst w, objs w !! id = Some inst → same_instances w (k inst w).2) →
  keeps_instances (bind (get_instance id) k).
Proof.
  intros Hk w. unfold bind at 1, get_instance, bind, gets. simpl.
  destruct (objs w !! id) as [inst|] eqn:Hid; simpl; [by apply Hk|].
  apply same_instances_refl.
Qed.

Create HintDb instances discriminated.
Hint Resolve keeps_ret keeps_raise keeps_gets keeps_of_result : instances.
Hint Extern 2 (keeps_instances (bind _ _)) => apply keeps_bind; [|intros ?] : instances.
Hint Extern 1 (keeps_instances (modify _)) => by apply keeps_modify : instances.
Hint Extern 1 (keeps_instances dangling) => apply keeps_raise : instances.

Lemma keeps_get_instance id : keeps_instances (rule := rule) (get_instance id).
Proof. unfold get_instance. apply keeps_bind; [auto with instances|]. intros []; auto with instances. Qed.

Lemma keeps_get_dict l : keeps_instances (rule := rule) (get_dict l).
Proof. unfold get_dict. apply keeps_bind; [auto with instances|]. intros []; auto with instances. Qed.

Lemma keeps_set_dict l d : keeps_instances (set_dict l d).
Proof. unfold set_dict. auto with instances. Qed.

Lemma keeps_log_call s C : keeps_instances (rule := rule) (log_call s C).
Proof. unfold log_call. auto with instances. Qed.

Hint Resolve keeps_get_instance keeps_get_dict keeps_set_dict keeps_log_call : instances.

Lemma keeps_alloc_dict d : keeps_instances (alloc_dict d).
Proof. unfold alloc_dict. auto with instances. Qed.

Lemma keeps_getattr id name : keeps_instances (rule := rule) (getattr id name).
Proof.
  unfold getattr. apply keeps_bind; [auto with instances|]. intros inst.
  destruct (attrs inst !! name); [auto with instances|].
  destruct (methods inst !! name); auto with instances.
Qed.

Hint Resolve keeps_alloc_dict keeps_getattr : instances.

Lemma keeps_parse_loop id l keys (dynamic_config : kwargs rule) :
  keeps_instances (parse_loop id l keys dynamic_config).
Proof.
  revert dynamic_config.
  induction keys as [|key keys IH]; intros dynamic_config; simpl; [auto with instances|].
  destruct (is_dynamic key); [|done].
  apply keeps_bind; [auto with instances|]. intros v.
  apply keeps_bind; [auto with instances|]. intros d.
  destruct (Dict.get key d); auto with instances.
Qed.

Lemma keeps_dict_kwargs d (dynamic_config : kwargs rule) :
  keeps_instances (dict_kwargs d dynamic_config).
Proof.
  unfold dict_kwargs. destruct (non_string_key _); [auto with instances|].
  destruct (Dict.merge_kwargs _ _); auto with instances.
Qed.

Hint Resolve keeps_parse_loop keeps_dict_kwargs : instances.

Lemma keeps_parse_dynamic_fields id :
  keeps_instances (rule := rule) (_parse_dynamic_fields id).
Proof.
  unfold _parse_dynamic_fields.
  apply keeps_bind; [auto with instances|]. intros inst.
  destruct (required_fields inst) as [l|]; [|auto with instances].
  apply keeps_bind; [auto with instances|]. intros d.
  apply keeps_bind; [auto with instances|]. intros dynamic_config.
  apply keeps_bind; [auto with instances|]. intros d1.
  apply keeps_bind; [auto with instances|]. intros d'.
  apply keeps_bind; [auto with instances|]. intros l'.
  apply keeps_with_instance. intros inst' w Hid.
  by apply (same_instances_insert w id inst').
Qed.

Hint Resolve keeps_parse_dynamic_fields : instances.

Lemma keeps_validate id C : keeps_instances (validate id C).
Proof.
  unfold validate.
  apply keeps_bind; [auto with instances|]. intros _.
  apply keeps_bind; [auto with instances|]. intros inst.
  apply keeps_bind; [auto with instances|]. intros [schema|]; [|auto with instances].
  destruct (V_validate schema C); auto with instances.
Qed.

Lemma keeps_dispatch id names C : keeps_instances (rule := rule) (dispatch id names C).
Proof.
  induction names as [|method names IH]; simpl; [auto with instances|].
  apply keeps_with_instance. intros inst w Hid.
  destruct (attrs inst !! method); [apply same_instances_refl|].
  destruct (methods inst !! method) as [f|]; [|apply IH].
  destruct (f (attrs inst) C) as [[store'|e] attrs'];
    by apply (same_instances_insert w id inst).
Qed.

Hint Resolve keeps_validate keeps_dispatch : instances.

Lemma keeps_Step_run id C : keeps_instances (Step_run id C).
Proof.
  unfold Step_run.
  apply keeps_bind; [auto with instances|]. intros inst.
  apply keeps_bind; [destruct (required_fields inst); auto with instances|].
  intros store. apply keeps_bind; [auto with instances|].
  intros [store'|]; auto with instances.
Qed.

Lemma keeps_run s C : keeps_instances (run s C).
Proof.
  revert C. induction s as [id|A IHA B IHB|A IHA B IHB]; intros C; simpl.
  - apply keeps_bind; [auto with instances|]. intros _. apply keeps_Step_run.
  - apply keeps_bind; [auto with instances|]. intros _.
    apply keeps_try_except; [|auto with instances].
    apply keeps_bind; [done|]. intros ra.
    apply keeps_bind; [done|]. auto with instances.
  - apply keeps_bind; [auto with instances|]. intros _.
    by apply keeps_try_except.
Qed.

(** Running a step creates no instance and removes none, and an instance
    keeps its class, its [_available_methods] and its methods: only its
    attributes and its [required_fields] can change. *)
Theorem run_keeps_instances s C w id inst :
  objs w !! id = Some inst →
  dom (objs (run s C w).2) = dom (objs w)
  ∧ ∃ inst', objs (run s C w).2 !! id = Some inst'
             ∧ cls_name inst' = cls_name inst
             ∧ _available_methods inst' = _available_methods inst
             ∧ methods inst' = methods inst.
Proof.
  intros Hid. pose proof (keeps_run s C w) as Hkeep. split.
  - apply set_eq. intros id'. rewrite !elem_of_dom. specialize (Hkeep id').
    destruct (objs w !! id'), (objs (run s C w).2 !! id'); done.
  - specialize (Hkeep id). rewrite Hid in Hkeep.
    destruct (objs (run s C w).2 !! id) as [inst'|]; [|done]. by exists inst'.
Qed.


(** ** The log of calls is not read *)

Lemma ignores_log_ret {X} (a : X) : ignores_log (rule := rule) (ret a).
Proof. by intros w w' Hw. Qed.

Lemma ignores_log_raise {X} e : ignores_log (rule := rule) (raise (A := X) e).
Proof. by intros w w' Hw. Qed.

Lemma ignores_log_gets {X} (f : world rule → X) :
  (∀ w w', same_but_log w w' → f w = f w') → ignores_log (gets f).
Proof. intros Hf w w' Hw. unfold gets. simpl. by rewrite (Hf w w'). Qed.

Lemma ignores_log_modify (g : world rule → world rule) :
  (∀ w w', same_but_log w w' → same_but_log (g w) (g w')) → ignores_log (modify g).
Proof. intros Hg w w' Hw. unfold modify. simpl. split; [done|]. by apply Hg. Qed.

Lemma ignores_log_bind {X Y} (m : M rule X) (k : X → M rule Y) :
  ignores_log m → (∀ a, ignores_log (k a)) → ignores_log (bind m k).
Proof.
  intros Hm Hk w w' Hw. unfold bind. destruct (Hm w w' Hw) as [Hres Hw1].
  destruct (m w) as [r1 w1], (m w') as [r2 w2]. simpl in *. subst r2.
  destruct r1 as [a|e]; [by apply Hk|done].
Qed.

Lemma ignores_log_try_except {X} (m : M rule X) h :
  ignores_log m → (∀ e, ignores_log (h e)) → ignores_log (try_except m h).
Proof.
  intros Hm Hh w w' Hw. unfold try_except. destruct (Hm w w' Hw) as [Hres Hw1].
  destruct (m w) as [r1 w1], (m w') as [r2 w2]. simpl in *. subst r2.
  destruct r1 as [a|e]; [done|].
  destruct (is_Exception e); [by apply Hh|done].
Qed.

Lemma ignores_log_of_result {X} (r : result X) : ignores_log (rule := rule) (of_result r).
Proof. destruct r; by intros w w' Hw. Qed.

Create HintDb log discriminated.
Hint Resolve ignores_log_ret ignores_log_raise ignores_log_of_result : log.
Hint Extern 2 (ignores_log (bind _ _)) => apply ignores_log_bind; [|intros ?] : log.
Hint Extern 1 (ignores_log dangling) => apply ignores_log_raise : log.

Lemma ignores_log_get_instance id : ignores_log (rule := rule) (get_instance id).
Proof.
  unfold get_instance. apply ignores_log_bind.
  - apply ignores_log_gets. by intros w w' [-> _].
  - intros []; auto with log.
Qed.

Lemma ignores_log_get_dict l : ignores_log (rule := rule) (get_dict l).
Proof.
  unfold get_dict. apply ignores_log_bind.
  - apply ignores_log_gets. by intros w w' (_ & -> & _).
  - intros []; auto with log.
Qed.

Lemma ignores_log_set_instance id inst : ignores_log (rule := rule) (set_instance id inst).
Proof.
  apply ignores_log_modify. intros w w' (Ho & Hd & Hc).
  unfold same_but_log. simpl. by rewrite Ho, Hd, Hc.
Qed.

Lemma ignores_log_set_dict l d : ignores_log (set_dict l d).
Proof.
  apply ignores_log_modify. intros w w' (Ho & Hd & Hc).
  unfold same_but_log. simpl. by rewrite Ho, Hd, Hc.
Qed.

Lemma ignores_log_log_call s C : ignores_log (rule := rule) (log_call s C).
Proof. apply ignores_log_modify. by intros w w' (Ho & Hd & Hc). Qed.

Hint Resolve ignores_log_get_instance ignores_log_get_dict ignores_log_set_instance
  ignores_log_set_dict ignores_log_log_call : log.

Lemma ignores_log_alloc_dict d : ignores_log (alloc_dict d).
Proof.
  unfold alloc_dict. apply ignores_log_bind; [|auto with log].
  apply ignores_log_gets. by intros w w' (_ & -> & _).
Qed.

Lemma ignores_log_getattr id name : ignores_log (rule := rule) (getattr id name).
Proof.
  unfold getattr. apply ignores_log_bind; [auto with log|]. intros inst.
  destruct (attrs inst !! name); [auto with log|].
  destruct (methods inst !! name); auto with log.
Qed.

Hint Resolve ignores_log_alloc_dict ignores_log_getattr : log.

Lemma ignores_log_parse_loop id l keys (dynamic_config : kwargs rule) :
  ignores_log (parse_loop id l keys dynamic_config).
Proof.
  revert dynamic_config.
  induction keys as [|key keys IH]; intros dynamic_config; simpl; [auto with log|].
  destruct (is_dynamic key); [|done].
  apply ignores_log_bind; [auto with log|]. intros v.
  apply ignores_log_bind; [auto with log|]. intros d.
  destruct (Dict.get key d); auto with log.
Qed.

Lemma ignores_log_dict_kwargs d (dynamic_config : kwargs rule) :
  ignores_log (dict_kwargs d dynamic_config).
Proof.
  unfold dict_kwargs. destruct (non_string_key _); [auto with log|].
  destruct (Dict.merge_kwargs _ _); auto with log.
Qed.

Hint Resolve ignores_log_parse_loop ignores_log_dict_kwargs : log.

Lemma ignores_log_parse_dynamic_fields id :
  ignores_log (rule := rule) (_parse_dynamic_fields id).
Proof.
  unfold _parse_dynamic_fields.
  apply ignores_log_bind; [auto with log|]. intros inst.
  destruct (required_fields inst); auto 10 with log.
Qed.

Hint Resolve ignores_log_parse_dynamic_fields : log.

Lemma ignores_log_validate id C : ignores_log (validate id C).
Proof.
  unfold validate.
  apply ignores_log_bind; [auto with log|]. intros _.
  apply ignores_log_bind; [auto with log|]. intros inst.
  apply ignores_log_bind.
  - apply ignores_log_gets. intros w w' (Ho & Hd & _).
    unfold self_required_fields. by rewrite Ho, Hd.
  - intros [schema|]; [|auto with log].
    destruct (V_validate schema C); auto with log.
Qed.

Lemma ignores_log_dispatch id names C : ignores_log (rule := rule) (dispatch id names C).
Proof.
  induction names as [|method names IH]; simpl; [auto with log|].
  apply ignores_log_bind; [auto with log|]. intros inst.
  destruct (attrs inst !! method); [auto with log|].
  destruct (methods inst !! method) as [f|]; [|done].
  destruct (f (attrs inst) C) as [[store'|e] attrs']; auto with log.
Qed.

Hint Resolve ignores_log_validate ignores_log_dispatch : log.

Lemma ignores_log_Step_run id C : ignores_log (Step_run id C).
Proof.
  unfold Step_run.
  apply ignores_log_bind; [auto with log|]. intros inst.
  apply ignores_log_bind; [destruct (required_fields inst); auto with log|].
  intros store. apply ignores_log_bind; [auto with log|].
  intros [store'|]; auto with log.
Qed.

Lemma ignores_log_run s C : ignores_log (run s C).
Proof.
  revert C. induction s as [id|A IHA B IHB|A IHA B IHB]; intros C; simpl.
  - apply ignores_log_bind; [auto with log|]. intros _. apply ignores_log_Step_run.
  - apply ignores_log_bind; [auto with log|]. intros _.
    apply ignores_log_try_except; [|auto with log].
    apply ignores_log_bind; [done|]. intros ra.
    apply ignores_log_bind; [done|]. auto with log.
  - apply ignores_log_bind; [auto with log|]. intros _.
    by apply ignores_log_try_except.
Qed.

Lemma same_but_log_entered s C s' C' w w' :
  same_but_log w w' → same_but_log (entered s C w) (entered s' C' w').
Proof. by intros (Ho & Hd & Hc). Qed.

(** [|] is associative: [(A | B) | F] and [A | (B | F)] return or raise the
    same, and leave the same instances, dictionaries and console; they
    differ in the entries the composites themselves make in the log. *)
Theorem or_step_associative A B F C w :
  let left := run (OrStep (OrStep A B) F) C w in
  let right := run (OrStep A (OrStep B F)) C w in
  left.1 = right.1
  ∧ objs left.2 = objs right.2
  ∧ dicts left.2 = dicts right.2
  ∧ console left.2 = console right.2.
Proof.
  intros left right.
  assert (left.1 = right.1 ∧ same_but_log left.2 right.2) as [Hres Hw]; [|done].
  unfold left, right. rewrite !run_OrStep.
  set (wl := entered (OrStep A B) C (entered (OrStep (OrStep A B) F) C w)).
  set (wr := entered (OrStep A (OrStep B F)) C w).
  assert (same_but_log wl wr) as Hw0 by done.
  destruct (ignores_log_run A C wl wr Hw0) as [HA HwA].
  destruct (run A C wl) as [ra wa], (run A C wr) as [ra' wa']. simpl in HA, HwA. subst ra'.
  destruct ra as [r|e1]; [done|].
  destruct (is_Exception e1) eqn:He1; [|by rewrite He1].
  rewrite run_OrStep.
  set (C1 := copy C {["exception" := VExn e1]}).
  assert (same_but_log wa (entered (OrStep B F) C1 wa')) as Hw1.
  { destruct HwA as (Ho & Hd & Hc). by repeat split. }
  destruct (ignores_log_run B C1 _ _ Hw1) as [HB HwB].
  destruct (run B C1 wa) as [rb wb], (run B C1 _) as [rb' wb']. simpl in HB, HwB. subst rb'.
  destruct rb as [r|e2]; [done|].
  destruct (is_Exception e2) eqn:He2; [|done].
  replace (copy C1 {["exception" := VExn e2]}) with (copy C {["exception" := VExn e2]}).
  - by apply ignores_log_run.
  - unfold C1, copy. by rewrite <- !insert_union_singleton_l, insert_insert_eq.
Qed.

End Properties.

(** * The properties at work on the example steps *)

Import Demo.

Lemma pair_fst_eq {X Y} (p : X * Y) (x : X) : p.1 = x → p = (x, p.2).
Proof. intros <-. by destruct p. Qed.

(** C1, read to the letter, fails on an exception that is not an instance
    of [Exception]: a [KeyboardInterrupt] raised in a branch comes out of
    the composition. *)
Lemma and_step_interrupt_propagates :
  ¬ swallows_any_exception (Atom 13) (Atom 0) C_a wk.
Proof.
  intros Hclaim. unfold swallows_any_exception in Hclaim. cbv zeta in Hclaim.
  assert ((run (AndStep (Atom 13) (Atom 0)) C_a wk).1 = Raise keyboard_interrupt)
    as Hraise by (vm_compute; reflexivity).
  rewrite Hraise in Hclaim.
  assert (Raise keyboard_interrupt = Ok C_a) as Habsurd; [|discriminate Habsurd].
  apply Hclaim. left. exists keyboard_interrupt. vm_compute. reflexivity.
Qed.

Lemma and_step_failure_returns_input_witness :
  ((run (Atom 0) C_a (entered (AndStep (Atom 0) (Atom 2)) C_a w0)).1 = Raise no_such_row
   ∨ ∃ result_a,
       (run (Atom 0) C_a (entered (AndStep (Atom 0) (Atom 2)) C_a w0)).1 = Ok result_a
       ∧ (run (Atom 2) C_a
              (run (Atom 0) C_a (entered (AndStep (Atom 0) (Atom 2)) C_a w0)).2).1
         = Raise no_such_row)
  ∧ (run (AndStep (Atom 0) (Atom 2)) C_a w0).1 = Ok C_a.
Proof.
  assert ((run (Atom 0) C_a (entered (AndStep (Atom 0) (Atom 2)) C_a w0)).1 = Raise no_such_row
          ∨ ∃ result_a,
              (run (Atom 0) C_a (entered (AndStep (Atom 0) (Atom 2)) C_a w0)).1 = Ok result_a
              ∧ (run (Atom 2) C_a
                     (run (Atom 0) C_a (entered (AndStep (Atom 0) (Atom 2)) C_a w0)).2).1
                = Raise no_such_row) as Hfail.
  { right. exists C_name. split; vm_compute; reflexivity. }
  split; [exact Hfail|].
  exact (and_step_failure_returns_input (Atom 0) (Atom 2) C_a w0 no_such_row Hfail).
Defined.

(** C2, read to the letter, fails on the same exception: [A | B] raises it
    and [B] is not run. *)
Lemma or_step_interrupt_propagates :
  ¬ falls_back_on_any_exception (Atom 13) (Atom 0) C_a wk.
Proof.
  intros Hclaim. unfold falls_back_on_any_exception in Hclaim. cbv zeta in Hclaim.
  assert ((run (Atom 13) C_a (entered (OrStep (Atom 13) (Atom 0)) C_a wk)).1
          = Raise keyboard_interrupt) as Hraise by (vm_compute; reflexivity).
  apply Hclaim in Hraise. apply (f_equal fst) in Hraise.
  vm_compute in Hraise. discriminate Hraise.
Qed.

Lemma or_step_failure_runs_obj_b_witness :
  (run (Atom 2) C_a (entered (OrStep (Atom 2) (Atom 1)) C_a w0)).1 = Raise no_such_row
  ∧ run (OrStep (Atom 2) (Atom 1)) C_a w0
    = run (Atom 1) (<["exception" := VExn no_such_row]> C_a)
          (run (Atom 2) C_a (entered (OrStep (Atom 2) (Atom 1)) C_a w0)).2.
Proof.
  assert ((run (Atom 2) C_a (entered (OrStep (Atom 2) (Atom 1)) C_a w0)).1
          = Raise no_such_row) as Hraise by (vm_compute; reflexivity).
  split; [exact Hraise|].
  exact (proj1 (or_step_failure_runs_obj_b (Atom 2) (Atom 1) C_a w0 no_such_row Hraise)).
Defined.

Lemma or_step_success_skips_obj_b_witness :
  (run (Atom 0) C_a (entered (OrStep (Atom 0) (Atom 2)) C_a w0)).1 = Ok C_name
  ∧ calls (run (OrStep (Atom 0) (Atom 2)) C_a w0).2
    = [(OrStep (Atom 0) (Atom 2), C_a); (Atom 0, C_a)].
Proof.
  assert ((run (Atom 0) C_a (entered (OrStep (Atom 0) (Atom 2)) C_a w0)).1
          = Ok C_name) as Hok by (vm_compute; reflexivity).
  split; [exact Hok|].
  rewrite (proj2 (or_step_success_skips_obj_b (Atom 0) (Atom 2) C_a w0 C_name Hok)).
  vm_compute. reflexivity.
Defined.


(** C6, read to the letter, fails on a container that has a key [obj_a]
    already, as the output of an earlier [&] has: the value under that key is
    replaced. *)
Lemma and_step_replaces_obj_a :
  ¬ attaches_keeping_every_key (Atom 0) (Atom 1) C_obj_a w0.
Proof.
  intros Hclaim.
  destruct (Hclaim (<["name" := VStr "ada"]> C_obj_a) (<["age" := VInt 36]> C_obj_a))
    as (R & _ & Ha & _ & Hkeep); [vm_compute; reflexivity..|].
  specialize (Hkeep "obj_a" (VInt 1) eq_refl).
  rewrite Ha in Hkeep. discriminate Hkeep.
Qed.

Lemma and_step_success_attaches_results_witness :
  (run (Atom 0) C_a (entered (AndStep (Atom 0) (Atom 1)) C_a w0)).1 = Ok C_name
  ∧ (run (Atom 1) C_a (run (Atom 0) C_a (entered (AndStep (Atom 0) (Atom 1)) C_a w0)).2).1
    = Ok C_age
  ∧ (run (AndStep (Atom 0) (Atom 1)) C_a w0).1
    = Ok (<["obj_a" := VDict C_name]> (<["obj_b" := VDict C_age]> C_a)).
Proof.
  assert ((run (Atom 0) C_a (entered (AndStep (Atom 0) (Atom 1)) C_a w0)).1 = Ok C_name)
    as Ha by (vm_compute; reflexivity).
  assert ((run (Atom 1) C_a
             (run (Atom 0) C_a (entered (AndStep (Atom 0) (Atom 1)) C_a w0)).2).1
          = Ok C_age) as Hb by (vm_compute; reflexivity).
  split; [exact Ha|]. split; [exact Hb|].
  exact (proj1 (and_step_success_attaches_results (Atom 0) (Atom 1) C_a w0 C_name C_age Ha Hb)).
Defined.

(** The pipe [[S1; S2; S3]] of the class [StopAtAge], inspection on: [S1]
    commits, [interrupt] holds on the output of [S2]. *)
Lemma commits_S1 : @commits _ _ StopAtAge [Atom 0] (self0, w0) (self1, w1).
Proof.
  apply (commits_cons (Atom 0) [] self0 w0 (store self1) w1 (self1, w1)).
  - apply pair_fst_eq. vm_compute. reflexivity.
  - reflexivity.
  - apply commits_nil.
Qed.

Lemma run_S2 : run (Atom 1) (store self1) (inspected self1 (Atom 1) w1) = (Ok r2, w2).
Proof. apply pair_fst_eq. vm_compute. reflexivity. Qed.

(** C3, read to the letter, fails when the step returns the container it
    was given and [after_pipe] is the hook of [BasePipe]: the value returned
    is the store the pipe object holds. *)
Lemma interrupted_pipe_returns_the_store :
  ¬ @interrupted_store_differs _ _ AlwaysStop [] (Atom 14) [] pipe_a wk.
Proof.
  intros Hclaim.
  assert (run (Atom 14) (store pipe_a) (inspected pipe_a (Atom 14) wk)
          = (Ok C_a, (run (Atom 14) (store pipe_a) (inspected pipe_a (Atom 14) wk)).2))
    as Hrun by (apply pair_fst_eq; vm_compute; reflexivity).
  destruct (Hclaim pipe_a wk C_a _ (commits_nil _ _) Hrun eq_refl) as (_ & _ & Hdiffer).
  apply Hdiffer. vm_compute. reflexivity.
Qed.

Lemma interrupted_pipe_store_not_committed_witness :
  @commits _ _ StopAtAge [Atom 0] (self0, w0) (self1, w1)
  ∧ run (Atom 1) (store self1) (inspected self1 (Atom 1) w1) = (Ok r2, w2)
  ∧ @interrupt StopAtAge r2 = true
  ∧ let out := @_run_pipe _ _ StopAtAge [Atom 0; Atom 1; Atom 3] self0 w0 in
    out.1.1 = Ok (<["done" := VNone]> r2)
    ∧ store out.1.2 = {[ "name" := VStr "ada" ]}.
Proof.
  split; [exact commits_S1|]. split; [exact run_S2|]. split; [reflexivity|].
  destruct (@interrupted_pipe_store_not_committed _ _ StopAtAge
              [Atom 0] (Atom 1) [Atom 3] self0 w0 self1 w1 r2 w2
              commits_S1 run_S2 eq_refl) as (Hres & Hstore & _).
  split; [exact Hres|exact Hstore].
Defined.

Lemma interrupted_pipe_stops_witness :
  @commits _ _ StopAtAge [Atom 0] (self0, w0) (self1, w1)
  ∧ run (Atom 1) (store self1) (inspected self1 (Atom 1) w1) = (Ok r2, w2)
  ∧ @interrupt StopAtAge r2 = true
  ∧ let out := @_run_pipe _ _ StopAtAge [Atom 0; Atom 1; Atom 3] self0 w0 in
    out.1.1 = Ok (<["done" := VNone]> r2)
    ∧ (calls out.2).*1 = [Atom 0; Atom 1].
Proof.
  split; [exact commits_S1|]. split; [exact run_S2|]. split; [reflexivity|].
  destruct (@interrupted_pipe_stops _ _ StopAtAge
              [Atom 0] (Atom 1) [Atom 3] self0 w0 self1 w1 r2 w2
              commits_S1 run_S2 eq_refl) as (Hres & Hw & _).
  split; [exact Hres|].
  cbv zeta. simpl app in Hw. rewrite Hw. vm_compute. reflexivity.
Defined.

Lemma empty_required_fields_pass_validation_witness :
  (∀ store, ∃ adapted, V_validate [] store = Adapted adapted)
  ∧ objs w0 !! 4 = Some TEmpty
  ∧ self_required_fields 4 w0 = Some []
  ∧ (validate 4 C_a (entered (Atom 4) C_a w0)).1 = Ok C_a.
Proof.
  assert (∀ store, ∃ adapted, V_validate (rule := type_rule) [] store = Adapted adapted)
    as Haccept by (intros store; exists store; reflexivity).
  split; [exact Haccept|]. split; [reflexivity|]. split; [reflexivity|].
  destruct (empty_required_fields_pass_validation 4 TEmpty C_a w0 Haccept eq_refl eq_refl)
    as (adapted & Hadapted & Hval & _).
  rewrite Hval. injection Hadapted as <-. vm_compute. reflexivity.
Defined.

(** With the empty schema too, a container that has a key [self] does not
    get through [validate]: the adapted entries are passed to [store.copy]
    as keywords, and the keyword [self] is a [TypeError], not a validation
    error. *)
Example validate_container_with_key_self :
  (validate 4 C_self w0).1 = Raise TypeError
  ∧ (run (Atom 4) C_self w0).1 = Raise TypeError.
Proof. split; vm_compute; reflexivity. Qed.

(** C8, read to the letter, fails when the attribute holds a string that is a
    literal key of the schema already: the [dict] call is given the keyword
    [users] twice and raises [TypeError]; the braced entry has been deleted
    from the dictionary but not re-keyed. *)
Lemma dynamic_key_clash_not_rekeyed : ¬ rekeys_entry 6 "{table_name}" C_a w0.
Proof.
  intros Hclaim.
  destruct (Hclaim LClash clash_schema IsStr "users")
    as (d' & Hd' & Hget & _); [reflexivity..|].
  assert (self_required_fields 6 (validate 6 C_a w0).2 = Some [("users", IsInt)])
    as Hleft by (vm_compute; reflexivity).
  rewrite Hleft in Hd'. injection Hd' as <-. discriminate Hget.
Qed.

Example dynamic_key_clash_state :
  (validate 6 C_a w0).1 = Raise TypeError
  ∧ self_required_fields 6 (validate 6 C_a w0).2 = Some [("users", IsInt)].
Proof. split; vm_compute; reflexivity. Qed.

(** The other provisos of the amended claim are needed as well.  A dynamic
    key naming an attribute the instance lacks stops the loop with
    [AttributeError], after the keys before it were deleted; two dynamic keys
    resolving to one string leave one entry, that of the later key. *)
Example dynamic_key_missing_attribute :
  (validate 7 C_a w0).1 = Raise (AttributeError "pk")
  ∧ self_required_fields 7 (validate 7 C_a w0).2 = Some [("{pk}", IsInt)].
Proof. split; vm_compute; reflexivity. Qed.

Example dynamic_keys_same_string :
  self_required_fields 8 (validate 8 C_a w0).2 = Some [("users", IsInt)].
Proof. vm_compute. reflexivity. Qed.

Lemma dynamic_fields_rekeyed_witness :
  objs w0 !! 5 = Some LTable
  ∧ self_required_fields 5 w0 = Some table_schema
  ∧ (∀ k, k ∈ Dict.keys table_schema → is_dynamic k → is_Some (resolved LTable k))
  ∧ NoDup (Dict.keys (dynamic_rekeyed LTable table_schema) ++ Dict.keys table_schema)
  ∧ self_required_fields 5 (validate 5 C_a w0).2 = Some [("id", IsInt); ("users", Anything)].
Proof.
  assert (∀ k, k ∈ Dict.keys table_schema → is_dynamic k → is_Some (resolved LTable k))
    as Hres.
  { intros k Hk Hdyn. change (Dict.keys table_schema) with ["+{table_name}"; "id"] in Hk.
    apply elem_of_cons in Hk as [->|Hk]; [by eexists|].
    apply elem_of_cons in Hk as [->|Hk]; [done|]. by apply elem_of_nil in Hk. }
  assert (NoDup (Dict.keys (dynamic_rekeyed LTable table_schema) ++ Dict.keys table_schema))
    as Hfresh.
  { change (NoDup ["users"; "+{table_name}"; "id"]).
    apply (bool_decide_unpack _). vm_compute. exact I. }
  split; [reflexivity|]. split; [reflexivity|]. split; [exact Hres|]. split; [exact Hfresh|].
  exact (proj1 (proj2 (dynamic_fields_rekeyed 5 LTable table_schema C_a w0
                         eq_refl eq_refl Hres Hfresh))).
Defined.

Lemma stateless_plain name method f :
  (∀ attrs store, (f attrs store).2 = attrs) → stateless (plain name method f).
Proof.
  intros Hf. split; [done|]. intros method' f' Hm attrs store.
  simpl in Hm. apply lookup_singleton_Some in Hm as [_ <-]. apply Hf.
Qed.

Lemma pure_pipe_runs_agree_witness :
  Forall (pure_step w0) [Atom 0; Atom 1]
  ∧ let first := @_run_pipe _ _ StopAtAge [Atom 0; Atom 1] (@__init__ StopAtAge C_a false) w0 in
    let second := @_run_pipe _ _ StopAtAge [Atom 0; Atom 1] (@__init__ StopAtAge C_a false) first.2 in
    first.1.1 = second.1.1 ∧ store first.1.2 = store second.1.2.
Proof.
  assert (Forall (pure_step w0) [Atom 0; Atom 1]) as Hpure.
  { repeat constructor.
    - by apply (stateless_pure_step 0 TName), stateless_plain.
    - by apply (stateless_pure_step 1 TAge), stateless_plain. }
  split; [exact Hpure|].
  exact (@pure_pipe_runs_agree _ _ StopAtAge w0 [Atom 0; Atom 1] C_a false Hpure).
Defined.

(** A step whose schema makes [_parse_dynamic_fields] fail is not a pure
    function of its container: the first call deletes the braced key before
    raising, the second finds a schema without dynamic keys. *)
Example clash_step_not_pure :
  (run (Atom 6) C_a w0).1 = Raise TypeError
  ∧ (run (Atom 6) C_a (run (Atom 6) C_a w0).2).1 = Ok (<["loaded" := VNone]> C_a).
Proof. split; vm_compute; reflexivity. Qed.

(** A name the schema of a named pipe does not have runs the empty sequence. *)
Example run_pipe_missing_name :
  (@run_pipe _ _ StopAtAge ∅ "missing" self1 w0).1.1 = Ok (<["done" := VNone]> (store self1)).
Proof. reflexivity. Qed.

Example startswith_plus_brace : startswith "+{table_name}" "+{" = true.
Proof. reflexivity. Qed.

Example endswith_brace : endswith "{table_name}" "}" = true.
Proof. reflexivity. Qed.

Example endswith_too_short : endswith "" "}" = false.
Proof. reflexivity. Qed.

Example strip_dynamic_key : variable_of "+{table_name}" = "table_name".
Proof. reflexivity. Qed.

Example join_methods : join "," ["extract"; "transform"; "load"] = "extract,transform,load".
Proof. reflexivity. Qed.


(** * The further properties at work *)

(** A [KeyboardInterrupt] goes through both operators. *)
Example keyboard_interrupt_propagates :
  (run (AndStep (Atom 13) (Atom 0)) C_a wk).1 = Raise keyboard_interrupt
  ∧ (run (OrStep (Atom 13) (Atom 0)) C_a wk).1 = Raise keyboard_interrupt
  ∧ (calls (run (OrStep (Atom 13) (Atom 0)) C_a wk).2).*1
    = [OrStep (Atom 13) (Atom 0); Atom 13].
Proof. repeat split; vm_compute; reflexivity. Qed.

Lemma or_step_raises_what_obj_b_raises_witness :
  (run (OrStep (Atom 2) (Atom 9)) C_a wx).1 = Raise disk_full
  ∧ ∃ e, (run (Atom 2) C_a (entered (OrStep (Atom 2) (Atom 9)) C_a wx)).1 = Raise e
         ∧ if is_Exception e
           then (run (Atom 9) (<["exception" := VExn e]> C_a)
                     (run (Atom 2) C_a (entered (OrStep (Atom 2) (Atom 9)) C_a wx)).2).1
                = Raise disk_full
           else disk_full = e
                ∧ (run (OrStep (Atom 2) (Atom 9)) C_a wx).2
                  = (run (Atom 2) C_a (entered (OrStep (Atom 2) (Atom 9)) C_a wx)).2.
Proof.
  assert ((run (OrStep (Atom 2) (Atom 9)) C_a wx).1 = Raise disk_full) as Hraise
    by (vm_compute; reflexivity).
  split; [exact Hraise|].
  exact (or_step_raises_what_obj_b_raises (Atom 2) (Atom 9) C_a wx disk_full Hraise).
Defined.

Lemma or_chain_keeps_latest_exception_witness :
  (run (Atom 2) C_a (entered (OrStep (Atom 2) (OrStep (Atom 9) (Atom 0))) C_a wx)).1
    = Raise no_such_row
  ∧ is_Exception no_such_row = true
  ∧ (run (Atom 9) (<["exception" := VExn no_such_row]> C_a)
         (entered (OrStep (Atom 9) (Atom 0)) (<["exception" := VExn no_such_row]> C_a)
            (run (Atom 2) C_a
               (entered (OrStep (Atom 2) (OrStep (Atom 9) (Atom 0))) C_a wx)).2)).1
    = Raise disk_full
  ∧ is_Exception disk_full = true
  ∧ (run (OrStep (Atom 2) (OrStep (Atom 9) (Atom 0))) C_a wx).1
    = Ok (<["name" := VStr "ada"]> (<["exception" := VExn disk_full]> C_a)).
Proof.
  assert ((run (Atom 2) C_a
             (entered (OrStep (Atom 2) (OrStep (Atom 9) (Atom 0))) C_a wx)).1
          = Raise no_such_row) as H1 by (vm_compute; reflexivity).
  assert ((run (Atom 9) (<["exception" := VExn no_such_row]> C_a)
             (entered (OrStep (Atom 9) (Atom 0)) (<["exception" := VExn no_such_row]> C_a)
                (run (Atom 2) C_a
                   (entered (OrStep (Atom 2) (OrStep (Atom 9) (Atom 0))) C_a wx)).2)).1
          = Raise disk_full) as H2 by (vm_compute; reflexivity).
  split; [exact H1|]. split; [reflexivity|]. split; [exact H2|]. split; [reflexivity|].
  rewrite (or_chain_keeps_latest_exception (Atom 2) (Atom 9) (Atom 0) C_a wx
             no_such_row disk_full H1 eq_refl H2 eq_refl).
  vm_compute. reflexivity.
Defined.

Lemma run_without_capability_method_witness :
  objs wx !! 10 = Some Bare
  ∧ required_fields Bare = None
  ∧ (∀ name, name ∈ _available_methods Bare → lacks Bare name)
  ∧ (run (Atom 10) C_a wx).1
    = Raise (StepExecutionException
               "You should define one of this methods - extract,transform,load").
Proof.
  assert (∀ name, name ∈ _available_methods Bare → lacks Bare name) as Hlacks
    by (intros name _; split; reflexivity).
  split; [reflexivity|]. split; [reflexivity|]. split; [exact Hlacks|].
  by rewrite (run_without_capability_method 10 Bare C_a wx eq_refl eq_refl Hlacks).
Defined.


Lemma run_S2_fails :
  run (Atom 2) (store self1) (inspected self1 (Atom 2) w1) = (Raise no_such_row, w_failed).
Proof. apply pair_fst_eq. vm_compute. reflexivity. Qed.

Lemma step_exception_aborts_pipe_witness :
  @commits _ _ StopAtAge [Atom 0] (self0, w0) (self1, w1)
  ∧ run (Atom 2) (store self1) (inspected self1 (Atom 2) w1) = (Raise no_such_row, w_failed)
  ∧ @_run_pipe _ _ StopAtAge [Atom 0; Atom 2; Atom 1] self0 w0
    = (Raise no_such_row, self1, w_failed).
Proof.
  split; [exact commits_S1|]. split; [exact run_S2_fails|].
  exact (@step_exception_aborts_pipe _ _ StopAtAge [Atom 0] (Atom 2) [Atom 1]
           self0 w0 self1 w1 no_such_row w_failed commits_S1 run_S2_fails).
Defined.

Lemma uninterrupted_pipe_returns_its_store_witness :
  (∀ store, @interrupt BasePipe store = false)
  ∧ (@_run_pipe _ _ BasePipe [Atom 0; Atom 1] pipe0 w0).1.1
    = Ok (<["age" := VInt 36]> (<["name" := VStr "ada"]> ∅))
  ∧ <["age" := VInt 36]> (<["name" := VStr "ada"]> ∅)
    = store (@_run_pipe _ _ BasePipe [Atom 0; Atom 1] pipe0 w0).1.2.
Proof.
  assert ((@_run_pipe _ _ BasePipe [Atom 0; Atom 1] pipe0 w0).1.1
          = Ok (<["age" := VInt 36]> (<["name" := VStr "ada"]> ∅))) as Hok
    by (vm_compute; reflexivity).
  split; [reflexivity|]. split; [exact Hok|].
  exact (proj2 (@uninterrupted_pipe_returns_its_store _ _ BasePipe [Atom 0; Atom 1]
                  pipe0 w0 _ (λ _, eq_refl) Hok)).
Defined.

Lemma run_pipe_unknown_name_witness :
  ({[ "greet" := [Atom 0] ]} : gmap string (list step)) !! "missing" = None
  ∧ @run_pipe _ _ StopAtAge {[ "greet" := [Atom 0] ]} "missing" self1 w0
    = (Ok (<["done" := VNone]> (store self1)), self1, w0).
Proof.
  split; [reflexivity|].
  exact (@run_pipe_unknown_name _ _ StopAtAge {[ "greet" := [Atom 0] ]} "missing"
           self1 w0 eq_refl).
Defined.

Lemma inspection_off_prints_nothing_witness :
  __inspection_mode pipe0 = false
  ∧ console (@_run_pipe _ _ BasePipe [Atom 0; Atom 1] pipe0 w0).2 = [].
Proof.
  split; [reflexivity|].
  exact (@inspection_off_prints_nothing _ _ BasePipe [Atom 0; Atom 1] pipe0 w0 eq_refl).
Defined.

Lemma inspection_on_prints_started_steps_witness :
  __inspection_mode self0 = true
  ∧ @commits _ _ StopAtAge [Atom 0] (self0, w0) (self1, w1)
  ∧ (console w1).*1 = [Atom 0]
  ∧ console (@_run_pipe _ _ StopAtAge [Atom 0; Atom 1; Atom 3] self0 w0).2
    = [(Atom 0, ∅); (Atom 1, {[ "name" := VStr "ada" ]})].
Proof.
  split; [reflexivity|]. split; [exact commits_S1|].
  destruct (@inspection_on_prints_started_steps _ _ StopAtAge [Atom 0] self0 w0 self1 w1
              eq_refl commits_S1) as (Hpre & _ & Hnext).
  split; [exact Hpre|].
  assert (∀ result,
            (run (Atom 1) (store self1) (inspected self1 (Atom 1) w1)).1 = Ok result →
            @interrupt StopAtAge result = true) as Hstop.
  { intros result Hres. rewrite run_S2 in Hres. by injection Hres as <-. }
  pose proof (proj1 (Hnext (Atom 1) [Atom 3] Hstop)) as Hlast.
  simpl app in Hlast. rewrite Hlast. vm_compute. reflexivity.
Defined.

Lemma braced_keys_are_dynamic_witness :
  plain_name "table_name" = true
  ∧ is_dynamic "+{table_name}" = true
  ∧ variable_of "+{table_name}" = "table_name".
Proof.
  destruct (braced_keys_are_dynamic "table_name") as (_ & Hdyn & _ & Hvar & Hplain).
  split; [reflexivity|]. split; [exact Hdyn|].
  exact (eq_trans Hvar (Hplain eq_refl)).
Defined.

Lemma table_schema_resolves :
  ∀ k, k ∈ Dict.keys table_schema → is_dynamic k → is_Some (resolved LTable k).
Proof.
  intros k Hk Hdyn. change (Dict.keys table_schema) with ["+{table_name}"; "id"] in Hk.
  apply elem_of_cons in Hk as [->|Hk]; [by eexists|].
  apply elem_of_cons in Hk as [->|Hk]; [done|]. by apply elem_of_nil in Hk.
Qed.

Lemma table_schema_fresh :
  NoDup (Dict.keys (dynamic_rekeyed LTable table_schema) ++ Dict.keys table_schema).
Proof.
  change (NoDup ["users"; "+{table_name}"; "id"]).
  apply (bool_decide_unpack _). vm_compute. exact I.
Qed.

Lemma validation_error_stops_the_step_witness :
  objs wx !! 5 = Some LTable
  ∧ self_required_fields 5 wx = Some table_schema
  ∧ (∀ k, k ∈ Dict.keys table_schema → is_dynamic k → is_Some (resolved LTable k))
  ∧ NoDup (Dict.keys (dynamic_rekeyed LTable table_schema) ++ Dict.keys table_schema)
  ∧ V_validate (rekeyed LTable table_schema) C_bad_id
    = ValidationError "invalid or missing property id"
  ∧ (run (Atom 5) C_bad_id wx).1
    = Raise (StepValidationException
               ("Validation for step LTable failed with error " ++ newline ++
                "invalid or missing property id")).
Proof.
  split; [reflexivity|]. split; [reflexivity|]. split; [exact table_schema_resolves|].
  split; [exact table_schema_fresh|]. split; [reflexivity|].
  by rewrite (proj1 (validation_error_stops_the_step 5 LTable table_schema C_bad_id wx
                       "invalid or missing property id" eq_refl eq_refl
                       table_schema_resolves table_schema_fresh eq_refl)).
Defined.

Lemma rekeyed_table_schema_static :
  ∀ k, k ∈ Dict.keys (rekeyed LTable table_schema) → ¬ is_dynamic k.
Proof.
  intros k Hk. change (Dict.keys (rekeyed LTable table_schema)) with ["id"; "users"] in Hk.
  apply elem_of_cons in Hk as [->|Hk]; [vm_compute; tauto|].
  apply elem_of_cons in Hk as [->|Hk]; [vm_compute; tauto|]. by apply elem_of_nil in Hk.
Qed.

Lemma dynamic_fields_resolved_once_witness :
  objs wx !! 5 = Some LTable
  ∧ self_required_fields 5 wx = Some table_schema
  ∧ (∀ k, k ∈ Dict.keys table_schema → is_dynamic k → is_Some (resolved LTable k))
  ∧ NoDup (Dict.keys (dynamic_rekeyed LTable table_schema) ++ Dict.keys table_schema)
  ∧ (∀ k, k ∈ Dict.keys (rekeyed LTable table_schema) → ¬ is_dynamic k)
  ∧ self_required_fields 5 (validate 5 C_bad_id (validate 5 C_a wx).2).2
    = Some [("id", IsInt); ("users", Anything)].
Proof.
  split; [reflexivity|]. split; [reflexivity|]. split; [exact table_schema_resolves|].
  split; [exact table_schema_fresh|]. split; [exact rekeyed_table_schema_static|].
  exact (proj2 (dynamic_fields_resolved_once 5 LTable table_schema C_a C_bad_id wx
                  eq_refl eq_refl table_schema_resolves table_schema_fresh
                  rekeyed_table_schema_static)).
Defined.

Lemma shared_schema_loses_dynamic_entries_witness :
  objs wx !! 5 = Some LTable
  ∧ objs wx !! 12 = Some LBooks
  ∧ 12 ≠ 5
  ∧ required_fields LTable = Some 1
  ∧ required_fields LBooks = Some 1
  ∧ dicts wx !! 1 = Some table_schema
  ∧ (∀ k, k ∈ Dict.keys table_schema → is_dynamic k → is_Some (resolved LTable k))
  ∧ NoDup (Dict.keys (dynamic_rekeyed LTable table_schema) ++ Dict.keys table_schema)
  ∧ self_required_fields 12 (validate 5 C_a wx).2 = Some [("id", IsInt)].
Proof.
  assert (12 ≠ 5) as Hne by lia.
  split; [reflexivity|]. split; [reflexivity|]. split; [exact Hne|].
  split; [reflexivity|]. split; [reflexivity|]. split; [reflexivity|].
  split; [exact table_schema_resolves|]. split; [exact table_schema_fresh|].
  exact (shared_schema_loses_dynamic_entries 5 LTable 12 LBooks 1 table_schema C_a wx
           eq_refl eq_refl Hne eq_refl eq_refl eq_refl
           table_schema_resolves table_schema_fresh).
Defined.

Lemma clash_schema_resolves :
  ∀ k, k ∈ Dict.keys clash_schema → is_dynamic k → is_Some (resolved LClash k).
Proof.
  intros k Hk Hdyn. change (Dict.keys clash_schema) with ["{table_name}"; "users"] in Hk.
  apply elem_of_cons in Hk as [->|Hk]; [by eexists|].
  apply elem_of_cons in Hk as [->|Hk]; [done|]. by apply elem_of_nil in Hk.
Qed.

Lemma dynamic_key_clash_raises_TypeError_witness :
  objs wx !! 6 = Some LClash
  ∧ self_required_fields 6 wx = Some clash_schema
  ∧ NoDup (Dict.keys clash_schema)
  ∧ (∀ k, k ∈ Dict.keys clash_schema → is_dynamic k → is_Some (resolved LClash k))
  ∧ NoDup (Dict.keys (dynamic_rekeyed LClash clash_schema))
  ∧ "users" ∈ Dict.keys (dynamic_rekeyed LClash clash_schema)
  ∧ "users" ∈ Dict.keys (static_part clash_schema)
  ∧ (validate 6 C_a wx).1 = Raise TypeError
  ∧ self_required_fields 6 (validate 6 C_a wx).2 = Some [("users", IsInt)].
Proof.
  assert (NoDup (Dict.keys clash_schema)) as Hnd
    by (apply (bool_decide_unpack _); vm_compute; exact I).
  assert (NoDup (Dict.keys (dynamic_rekeyed LClash clash_schema))) as Hnd'
    by (change (NoDup ["users"]); apply (bool_decide_unpack _); vm_compute; exact I).
  assert ("users" ∈ Dict.keys (dynamic_rekeyed LClash clash_schema)) as Hv
    by (change ("users" ∈ ["users"]); by left).
  assert ("users" ∈ Dict.keys (static_part clash_schema)) as Hv'
    by (change ("users" ∈ ["users"]); by left).
  split; [reflexivity|]. split; [reflexivity|]. split; [exact Hnd|].
  split; [exact clash_schema_resolves|]. split; [exact Hnd'|].
  split; [exact Hv|]. split; [exact Hv'|].
  exact (dynamic_key_clash_raises_TypeError 6 LClash clash_schema C_a wx "users"
           eq_refl eq_refl Hnd clash_schema_resolves Hnd' Hv Hv').
Defined.

Lemma validate_returns_only_if_keys_resolve_witness :
  objs wx !! 5 = Some LTable
  ∧ self_required_fields 5 wx = Some table_schema
  ∧ (validate 5 C_a wx).1 = Ok C_a
  ∧ is_Some (resolved LTable "+{table_name}").
Proof.
  assert ((validate 5 C_a wx).1 = Ok C_a) as Hok by (vm_compute; reflexivity).
  split; [reflexivity|]. split; [reflexivity|]. split; [exact Hok|].
  apply (validate_returns_only_if_keys_resolve 5 LTable table_schema C_a wx C_a
           eq_refl eq_refl Hok); [by left|done].
Defined.

Lemma run_leaves_other_instances_witness :
  (6 ∉ atoms (AndStep (Atom 3) (Atom 5)))
  ∧ objs wx !! 6 = Some LClash
  ∧ (∀ l, required_fields LClash = Some l →
       is_Some (dicts wx !! l)
       ∧ ∀ id' inst', id' ∈ atoms (AndStep (Atom 3) (Atom 5)) →
                      objs wx !! id' = Some inst' → required_fields inst' ≠ Some l)
  ∧ objs (run (AndStep (Atom 3) (Atom 5)) C_a wx).2 !! 6 = Some LClash
  ∧ self_required_fields 6 (run (AndStep (Atom 3) (Atom 5)) C_a wx).2 = Some clash_schema.
Proof.
  assert (6 ∉ atoms (AndStep (Atom 3) (Atom 5))) as Hnot.
  { change (6 ∉ [3; 5]). intros Hin.
    apply elem_of_cons in Hin as [Hin|Hin]; [lia|].
    apply elem_of_cons in Hin as [Hin|Hin]; [lia|]. by apply elem_of_nil in Hin. }
  assert (∀ l, required_fields LClash = Some l →
            is_Some (dicts wx !! l)
            ∧ ∀ id' inst', id' ∈ atoms (AndStep (Atom 3) (Atom 5)) →
                           objs wx !! id' = Some inst' → required_fields inst' ≠ Some l)
    as Hown.
  { intros l [= <-]. split; [by eexists|]. intros id' inst' Hin.
    change (id' ∈ [3; 5]) in Hin.
    apply elem_of_cons in Hin as [->|Hin]; [by intros [= <-]|].
    apply elem_of_cons in Hin as [->|Hin]; [by intros [= <-]|].
    by apply elem_of_nil in Hin. }
  split; [exact Hnot|]. split; [reflexivity|]. split; [exact Hown|].
  exact (run_leaves_other_instances (AndStep (Atom 3) (Atom 5)) C_a wx 6 LClash
           Hnot eq_refl Hown).
Defined.

Lemma run_keeps_instances_witness :
  objs wx !! 3 = Some TCount
  ∧ ∃ inst', objs (run (Atom 3) C_a wx).2 !! 3 = Some inst'
             ∧ cls_name inst' = "TCount"
             ∧ _available_methods inst' = default_methods
             ∧ methods inst' = methods TCount.
Proof.
  split; [reflexivity|].
  exact (proj2 (run_keeps_instances (Atom 3) C_a wx 3 TCount eq_refl)).
Defined.
